(** * brili: the Bril reference interpreter with manual memory management

    A shallow embedding of the interpreter (the TypeScript source of
    brili, in its version with a heap) and the properties of its error
    handling, call semantics, label resolution, heap use and driver.
    The modules it imports, bril.ts (the types of programs) and heap.ts
    (the heap and its keys), are modelled from the specification.

    Conventions of the embedding.
    - A [throw] is a value of type [error]; the constructors keep apart
      what the source keeps apart: [new BriliError(msg)], a thrown plain
      string, and an exception raised by the host itself.
    - The environment ([Map<Ident, Value>]) is a [gmap string Value]; the
      source mutates it in place, the embedding returns the updated map.
    - The heap and the printed lines are threaded through a state and
      error monad [M]; a raised error carries the state reached so far.
    - [evalFuncInEnv] may loop or recurse for ever: it takes fuel, one unit
      per executed line, and answers [OutOfFuel] when it runs out. *)

From Stdlib Require Import ZArith Lia Ascii.
From stdpp Require Import gmap strings list pretty.

Local Open Scope string_scope.

(** ** Host numbers *)

(** The double-precision numbers the interpreter meets are integers or not
    finite: [Num z] stands for the double of value [z] (only used for [z]
    that a double holds), the others for Infinity, -Infinity and NaN. *)
Inductive number :=
| Num (z : Z)
| PosInf
| NegInf
| NaN.

(** Round a natural number to the nearest double, ties to even; [None] when
    the result overflows to Infinity. *)
Definition roundDouble (m : Z) : option Z :=
  if (m <? 2 ^ 53)%Z then Some m
  else
    let e := (Z.log2 m - 52)%Z in
    let q := (m / 2 ^ e)%Z in
    let r := (m mod 2 ^ e)%Z in
    let half := (2 ^ (e - 1))%Z in
    let q' := if (r <? half)%Z then q
              else if (half <? r)%Z then (q + 1)%Z
              else if Z.even q then q else (q + 1)%Z in
    let v := (q' * 2 ^ e)%Z in
    if (2 ^ 1024 <=? v)%Z then None else Some v.

(** [Number(b)] for a BigInt [b]. *)
Definition Number (b : Z) : number :=
  if (b <? 0)%Z
  then match roundDouble (- b) with Some m => Num (- m) | None => NegInf end
  else match roundDouble b with Some m => Num m | None => PosInf end.

(** [n <= 0] on host numbers (false on NaN). *)
Definition number_le0 (n : number) : bool :=
  match n with
  | Num z => (z <=? 0)%Z
  | NegInf => true
  | PosInf | NaN => false
  end.

(** ** Types of the Bril program (bril.ts) *)

Abbreviation Ident := string.

(** Modelled from the spec: [bril.Type] of bril.ts, the "three declared
    static types (int, bool, ptr)"; they are the keys of
    [brilTypeToDynamicType] in the interpreter. *)
Inductive Type_ := TInt | TBool | TPtr.

Global Instance Type__eq_dec : EqDecision Type_.
Proof. solve_decision. Defined.

(** Modelled from the spec: the "optional declared type" and "optional
    pointee type for allocation instructions" of an instruction, declared
    in bril.ts. As the interpreter reads it, an annotation is a type name
    or a pointer type object [{ptr: ...}] ([bril.PointerType]). *)
Inductive DeclType :=
| Prim (t : Type_)
| PtrTo (ptr : DeclType).

(** ** Keys (heap.ts) *)

(** Modelled from the spec: class [Key] of heap.ts, which is not part of
    the sources at hand. "An opaque address into the heap, comprising an
    allocation identifier and an offset within that allocation." *)
Record Key := { base : nat; offset : number }.

Definition number_add (a b : number) : number :=
  match a, b with
  | Num x, Num y => Num (x + y)
  | NaN, _ | _, NaN => NaN
  | PosInf, NegInf | NegInf, PosInf => NaN
  | PosInf, _ | _, PosInf => PosInf
  | NegInf, _ | _, NegInf => NegInf
  end.

(** Modelled from the spec: [Key.add(n)] "yields a new Key with offset
    shifted by n, same allocation identifier; it performs no bounds
    validation at creation time". *)
Definition Key_add (k : Key) (n : number) : Key :=
  {| base := base k; offset := number_add (offset k) n |}.

(** ** Runtime values *)

(** [type Pointer = { loc: Key; type: bril.Type }] *)
Record Pointer := { loc : Key; type : Type_ }.

(** [type Value = boolean | Pointer | BigInt] *)
Inductive Value :=
| VBool (b : bool)
| VPtr (p : Pointer)
| VInt (n : Z).

(** [type ReturnValue = Value | null] *)
Definition ReturnValue := option Value.

(** [typeof v] on a runtime value. *)
Definition typeof (v : Value) : string :=
  match v with
  | VInt _ => "bigint"
  | VBool _ => "boolean"
  | VPtr _ => "object"
  end.

Definition brilTypeToDynamicType (t : Type_) : string :=
  match t with
  | TInt => "bigint"
  | TBool => "boolean"
  | TPtr => "object"
  end.

(** The runtime tag of a value, as a Bril type. *)
Definition typeOf (v : Value) : Type_ :=
  match v with
  | VInt _ => TInt
  | VBool _ => TBool
  | VPtr _ => TPtr
  end.

(** [v.toString()] *)
Definition toString (v : Value) : string :=
  match v with
  | VInt n => pretty n
  | VBool true => "true"
  | VBool false => "false"
  | VPtr _ => "[object Object]"
  end.

(** ** Errors *)

Inductive heap_fault :=
| NonPositiveAlloc
| InvalidFree
| InvalidAccess
| UninitializedRead.

Inductive error :=
| BriliError (message : string)  (* throw new BriliError(message) *)
| Thrown (s : string)            (* throw `...`, a plain string *)
| RangeError (message : string)  (* raised by the host, not by a throw of the interpreter *)
| HeapError (f : heap_fault).    (* raised inside the Heap *)

(** Pure code that may throw. *)
Definition E (A : Type) : Type := (error + A)%type.

Definition E_bind {A B} (c : E A) (k : A -> E B) : E B :=
  match c with
  | inl e => inl e
  | inr a => k a
  end.

Notation "'let?' x ':=' c 'in' k" := (E_bind c (fun x => k))
  (at level 10, x name, c at level 100, k at level 200).

(** ** The heap (heap.ts) *)

Module Heap.

(** Modelled from the spec: class [Heap<X>] of heap.ts, which is not part
    of the sources at hand. A block is "a heap-owned, contiguous,
    fixed-length sequence of value slots", each slot a value or
    uninitialized; every [alloc] issues an identifier "never issued
    before", here the counter [count]. *)
Record t (X : Type) := mk {
  storage : gmap nat (list (option X));
  count : nat
}.
Arguments mk {X} _ _.
Arguments storage {X} _.
Arguments count {X} _.

Section Ops.
Context {X : Type}.

Definition empty : t X := mk ∅ 0.

(** "true iff no blocks are currently live" *)
Definition isEmpty (h : t X) : bool := bool_decide (storage h = ∅).

(** "fails if count <= 0; otherwise creates a new block of count
    uninitialized slots" and answers its key at offset 0. A count that
    is not finite has no block of that many slots. *)
Definition alloc (amt : number) (h : t X) : E (Key * t X) :=
  match amt with
  | Num n =>
      if (n <=? 0)%Z then inl (HeapError NonPositiveAlloc)
      else inr ({| base := count h; offset := Num 0 |},
                mk (<[count h := replicate (Z.to_nat n) None]> (storage h))
                   (S (count h)))
  | _ => inl (HeapError NonPositiveAlloc)
  end.

(** "fails with InvalidFree if the key's allocation identifier does not
    refer to a currently-live block, or does not point at the block's
    base offset" *)
Definition free (key : Key) (h : t X) : E (t X) :=
  match storage h !! base key, offset key with
  | Some _, Num 0 => inr (mk (delete (base key) (storage h)) (count h))
  | _, _ => inl (HeapError InvalidFree)
  end.

(** The slot a key addresses: the block is live and the offset is in
    [0, count). *)
Definition slot (key : Key) (h : t X) : option (list (option X) * nat) :=
  match storage h !! base key, offset key with
  | Some data, Num z =>
      if bool_decide (0 <= z < Z.of_nat (length data))%Z
      then Some (data, Z.to_nat z) else None
  | _, _ => None
  end.

(** "fails with InvalidAccess if the allocation is not live or the
    offset is out of [0, count); fails with UninitializedRead if the
    slot was never written" *)
Definition read (key : Key) (h : t X) : E X :=
  match slot key h with
  | Some (data, i) =>
      match data !! i with
      | Some (Some x) => inr x
      | _ => inl (HeapError UninitializedRead)
      end
  | None => inl (HeapError InvalidAccess)
  end.

(** "same liveness/bounds checks as read; overwrites the slot
    unconditionally" *)
Definition write (key : Key) (val : X) (h : t X) : E (t X) :=
  match slot key h with
  | Some (data, i) =>
      inr (mk (<[base key := <[i := Some val]> data]> (storage h)) (count h))
  | None => inl (HeapError InvalidAccess)
  end.

End Ops.
End Heap.

(** ** Programs (bril.ts) *)

(** Modelled from the spec: [bril.OpCode] of bril.ts, the opcodes of the
    table of section 4.3, which are the keys of [argCounts] in the
    interpreter ([const] is apart, as there). Operations that write a
    destination, operations that do not, and [call], which does either. *)
Inductive ValueOpCode :=
| OpAdd | OpMul | OpSub | OpDiv | OpId
| OpLt | OpLe | OpGt | OpGe | OpEq
| OpNot | OpAnd | OpOr
| OpAlloc | OpLoad | OpPtradd.

Inductive EffectOpCode :=
| OpPrint | OpBr | OpJmp | OpRet | OpNop | OpFree | OpStore.

Inductive OpCode :=
| ValueOp (o : ValueOpCode)
| EffectOp (o : EffectOpCode)
| OpCall.

(** Modelled from the spec: the "embedded literal" of a [const], in
    bril.ts a JSON number (holding an integer) or a boolean. *)
Inductive Literal :=
| LitNum (n : Z)
| LitBool (b : bool).

(** Modelled from the spec: [bril.Instruction] of bril.ts, "a closed set of
    variants", each "carrying only the fields that opcode uses": opcode,
    argument identifiers, destination, literal, declared type; a call has
    the callee's name and may have a destination and a type. *)
Inductive Instruction :=
| Constant (dest : Ident) (ty : DeclType) (value : Literal)
| ValueOperation (op : ValueOpCode) (args : list Ident) (dest : Ident) (ty : DeclType)
| EffectOperation (op : EffectOpCode) (args : list Ident)
| CallOperation (name : Ident) (args : list Ident) (dest : option Ident) (ty : option Type_).

(** Modelled from the spec: an entry of "instructions: [Instruction |
    Label]", an instruction (it has an 'op' key) or a label. *)
Inductive Line :=
| Instr (i : Instruction)
| Label (label : Ident).

(** Modelled from the spec: [bril.Argument] of bril.ts, "{name, type}". *)
Record Argument := { aname : Ident; atype : Type_ }.

(** Modelled from the spec: [bril.Function] of bril.ts, "{ name, args:
    [{name, type}], returnType?, instructions: [Instruction | Label] }". *)
Record Function := {
  name : Ident;
  args : list Argument;
  rtype : option Type_;      (* func.type, absent for a void function *)
  instrs : list Line
}.

(** Modelled from the spec: [bril.Program] of bril.ts, the functions of
    the program, in the order of the table. *)
Record Program := { functions : list Function }.

Definition type_name (t : Type_) : string :=
  match t with
  | TInt => "int"
  | TBool => "bool"
  | TPtr => "ptr"
  end.

Definition op_name (op : OpCode) : string :=
  match op with
  | ValueOp OpAdd => "add" | ValueOp OpMul => "mul" | ValueOp OpSub => "sub"
  | ValueOp OpDiv => "div" | ValueOp OpId => "id"
  | ValueOp OpLt => "lt" | ValueOp OpLe => "le" | ValueOp OpGt => "gt"
  | ValueOp OpGe => "ge" | ValueOp OpEq => "eq"
  | ValueOp OpNot => "not" | ValueOp OpAnd => "and" | ValueOp OpOr => "or"
  | ValueOp OpAlloc => "alloc" | ValueOp OpLoad => "load"
  | ValueOp OpPtradd => "ptradd"
  | EffectOp OpPrint => "print" | EffectOp OpBr => "br" | EffectOp OpJmp => "jmp"
  | EffectOp OpRet => "ret" | EffectOp OpNop => "nop" | EffectOp OpFree => "free"
  | EffectOp OpStore => "store"
  | OpCall => "call"
  end.

(** [argCounts]: [None] is the source's [null], any number of arguments. *)
Definition argCounts (op : OpCode) : option nat :=
  match op with
  | ValueOp OpAdd | ValueOp OpMul | ValueOp OpSub | ValueOp OpDiv => Some 2
  | ValueOp OpId => Some 1
  | ValueOp OpLt | ValueOp OpLe | ValueOp OpGt | ValueOp OpGe | ValueOp OpEq => Some 2
  | ValueOp OpNot => Some 1
  | ValueOp OpAnd | ValueOp OpOr => Some 2
  | EffectOp OpPrint => None
  | EffectOp OpBr => Some 3
  | EffectOp OpJmp => Some 1
  | EffectOp OpRet => None
  | EffectOp OpNop => Some 0
  | OpCall => None
  | ValueOp OpAlloc => Some 1
  | EffectOp OpFree => Some 1
  | EffectOp OpStore => Some 2
  | ValueOp OpLoad => Some 1
  | ValueOp OpPtradd => Some 2
  end.

(** ** Machine state and the interpreter monad *)

Abbreviation Env := (gmap string Value).

Record State := {
  heap : Heap.t Value;
  out : list string          (* the lines printed by console.log, oldest first *)
}.

Inductive outcome (A : Type) :=
| Done (a : A) (s : State)
| Raise (e : error) (s : State)
| OutOfFuel.
Arguments Done {A} _ _.
Arguments Raise {A} _ _.
Arguments OutOfFuel {A}.

Definition M (A : Type) : Type := State -> outcome A.

Definition ret {A} (a : A) : M A := fun s => Done a s.

Definition throw {A} (e : error) : M A := fun s => Raise e s.

Definition bind {A B} (c : M A) (k : A -> M B) : M B := fun s =>
  match c s with
  | Done a s' => k a s'
  | Raise e s' => Raise e s'
  | OutOfFuel => OutOfFuel
  end.

Notation "'let*' x ':=' c 'in' k" := (bind c (fun x => k))
  (at level 10, x name, c at level 100, k at level 200).

(** Pure code run inside [M]: the state is untouched. *)
Definition lift {A} (c : E A) : M A := fun s =>
  match c with
  | inl e => Raise e s
  | inr a => Done a s
  end.

(** A heap method that answers a value. *)
Definition onHeap {A} (f : Heap.t Value -> E (A * Heap.t Value)) : M A := fun s =>
  match f (heap s) with
  | inl e => Raise e s
  | inr (a, h) => Done a {| heap := h; out := out s |}
  end.

(** A heap method that answers nothing. *)
Definition onHeap_ (f : Heap.t Value -> E (Heap.t Value)) : M unit :=
  onHeap (fun h => let? h' := f h in inr (tt, h')).

(** A heap method that only reads. *)
Definition fromHeap {A} (f : Heap.t Value -> E A) : M A := fun s =>
  match f (heap s) with
  | inl e => Raise e s
  | inr a => Done a s
  end.

(** [console.log(...values)]: one line, the values joined by spaces. *)
Definition console_log (values : list string) : M unit := fun s =>
  Done tt {| heap := heap s; out := out s ++ [String.concat " " values] |}.

(** ** The interpreter (brili.ts) *)

Definition get (env : Env) (ident : Ident) : E Value :=
  match env !! ident with
  | None => inl (BriliError ("undefined variable " ++ ident))
  | Some val => inr val
  end.

(** [get(env, args[index])]; an index past the end of [args] reads
    [undefined], which no environment binds. *)
Definition getAt (env : Env) (args : list Ident) (index : nat) : E Value :=
  match args !! index with
  | Some ident => get env ident
  | None => inl (BriliError "undefined variable undefined")
  end.

Definition findFunc (func : Ident) (funcs : list Function) : E Function :=
  let matches := filter (fun f => name f = func) funcs in
  match matches with
  | [] => inl (BriliError ("no function of name " ++ func ++ " found"))
  | [f] => inr f
  | _ :: _ :: _ => inl (BriliError ("multiple functions of name " ++ func ++ " found"))
  end.

(** The text of a host number inside a message (decimal digits; the
    exponent notation of the host for magnitudes from 1e21 on is not
    rendered). *)
Definition number_toString (n : number) : string :=
  match n with
  | Num z => pretty z
  | PosInf => "Infinity"
  | NegInf => "-Infinity"
  | NaN => "NaN"
  end.

Definition alloc (ptrType : DeclType) (amt : number) : M Pointer :=
  match ptrType with
  | Prim t => throw (Thrown ("unspecified pointer type " ++ type_name t))
  | PtrTo ptr =>
      if number_le0 amt
      then throw (Thrown ("must allocate a positive amount of memory: "
                          ++ number_toString amt ++ " <= 0"))
      else
        let* loc := onHeap (Heap.alloc amt) in
        let dataType :=
          match ptr with
          | Prim TInt => TInt
          | Prim TBool => TBool
          | _ => TPtr
          end in
        ret {| loc := loc; type := dataType |}
  end.

Definition checkArgs (op : OpCode) (args : list Ident) (count : nat) : E unit :=
  if bool_decide (length args ≠ count)
  then inl (BriliError (op_name op ++ " takes " ++ pretty count
                        ++ " argument(s); got " ++ pretty (length args)))
  else inr tt.

Definition getArgument (op : OpCode) (args : list Ident) (env : Env)
    (index : nat) (typ : Type_) : E Value :=
  let? val := getAt env args index in
  let brilTyp := brilTypeToDynamicType typ in
  if bool_decide (brilTyp ≠ typeof val)
  then inl (BriliError (op_name op ++ " argument " ++ pretty index
                        ++ " must be a {brilTyp}"))
  else inr val.

(** [getArgument(instr, env, index, 'int') as bigint]; the last branch is
    the cast on a value that [getArgument] has let through, and cannot be
    taken. *)
Definition getInt (op : OpCode) (args : list Ident) (env : Env) (index : nat) : E Z :=
  let? val := getArgument op args env index TInt in
  match val with
  | VInt n => inr n
  | _ => inl (BriliError (op_name op ++ " argument " ++ pretty index
                          ++ " must be a {brilTyp}"))
  end.

Definition getBool (op : OpCode) (args : list Ident) (env : Env) (index : nat) : E bool :=
  let? val := getArgument op args env index TBool in
  match val with
  | VBool b => inr b
  | _ => inl (BriliError (op_name op ++ " argument " ++ pretty index
                          ++ " must be a {brilTyp}"))
  end.

Definition getPtr (op : OpCode) (args : list Ident) (env : Env) (index : nat) : E Pointer :=
  let? val := getAt env args index in
  match val with
  | VPtr p => inr p
  | _ => inl (Thrown (op_name op ++ " argument " ++ pretty index
                      ++ " must be a Pointer"))
  end.

(** [type Action = {label} | {next: true} | {end: ReturnValue}] *)
Inductive Action :=
| ActLabel (label : Ident)
| NEXT
| ActEnd (v : ReturnValue).

(** The loop of [evalCall] over the parameter positions, from position [i]
    on: look the argument up in the calling environment, check its type,
    bind it in the new environment. *)
Fixpoint bindArgs (env : Env) (params : list Argument) (cargs : list Ident)
    (i : nat) (newEnv : Env) : E Env :=
  match params with
  | [] => inr newEnv
  | p :: params' =>
      let? value := getAt env cargs i in
      if bool_decide (brilTypeToDynamicType (atype p) ≠ typeof value)
      then inl (BriliError "function argument type mismatch")
      else bindArgs env params' cargs (S i) (<[aname p := value]> newEnv)
  end.

(** [`${func.type}`] *)
Definition rtype_text (t : option Type_) : string :=
  match t with
  | Some t => type_name t
  | None => "undefined"
  end.

Section Instr.

(** [evalFuncInEnv(func, funcs, newEnv, heap)], the recursive call of
    [evalCall]; the knot is tied in [evalLoop] below. *)
Variable evalFuncInEnv : Function -> Env -> M ReturnValue.

Definition evalCall (fname : Ident) (cargs : list Ident) (dest : option Ident)
    (ty : option Type_) (env : Env) (funcs : list Function) : M (Action * Env) :=
  let* func := lift (findFunc fname funcs) in
  if bool_decide (length (args func) ≠ length cargs)
  then throw (BriliError ("function expected " ++ pretty (length (args func))
                          ++ " arguments, got " ++ pretty (length cargs)))
  else
    let* newEnv := lift (bindArgs env (args func) cargs 0 ∅) in
    let* retVal := evalFuncInEnv func newEnv in
    match dest, ty with
    | None, None =>
        match retVal with
        | Some _ => throw (BriliError "unexpected value returned without destination")
        | None =>
            match rtype func with
            | Some t => throw (BriliError ("non-void function (type: " ++ type_name t
                                           ++ ") doesn't return anything"))
            | None => ret (NEXT, env)
            end
        end
    | Some _, None =>
        throw (BriliError "function call must include a type if it has a destination")
    | None, Some _ =>
        throw (BriliError "function call must include a destination if it has a type")
    | Some d, Some t =>
        match retVal with
        | None => throw (BriliError ("non-void function (type: " ++ rtype_text (rtype func)
                                     ++ ") doesn't return anything"))
        | Some v =>
            if bool_decide (brilTypeToDynamicType t ≠ typeof v)
            then throw (BriliError "type of value returned by function does not match destination type")
            else if bool_decide (rtype func ≠ Some t)
            then throw (BriliError "type of value returned by function does not match declaration")
            else ret (NEXT, <[d := v]> env)
        end
    end.

(** The opcode of an operation, the key into [argCounts]; a [const] has none. *)
Definition opcode (instr : Instruction) : option OpCode :=
  match instr with
  | Constant _ _ _ => None
  | ValueOperation op _ _ _ => Some (ValueOp op)
  | EffectOperation op _ => Some (EffectOp op)
  | CallOperation _ _ _ _ => Some OpCall
  end.

Definition instr_args (instr : Instruction) : list Ident :=
  match instr with
  | Constant _ _ _ => []
  | ValueOperation _ a _ _ => a
  | EffectOperation _ a => a
  | CallOperation _ a _ _ => a
  end.

(** The check at the head of [evalInstr]: "Check that we have the right
    number of arguments." *)
Definition checkArgCount (instr : Instruction) : E unit :=
  match opcode instr with
  | None => inr tt
  | Some op =>
      match argCounts op with
      | None => inr tt
      | Some count => checkArgs op (instr_args instr) count
      end
  end.

(** The BigInt operator [a / b]: truncates towards zero, and the host
    raises a RangeError on a zero divisor. *)
Definition bigint_div (a b : Z) : E Z :=
  if (b =? 0)%Z then inl (RangeError "Division by zero") else inr (Z.quot a b).

Definition evalValueOp (op : ValueOpCode) (a : list Ident) (dest : Ident)
    (ty : DeclType) (env : Env) : M (Action * Env) :=
  let o := ValueOp op in
  match op with
  | OpId =>
      let* val := lift (getAt env a 0) in
      ret (NEXT, <[dest := val]> env)
  | OpAdd =>
      let* x := lift (getInt o a env 0) in
      let* y := lift (getInt o a env 1) in
      ret (NEXT, <[dest := VInt (x + y)]> env)
  | OpMul =>
      let* x := lift (getInt o a env 0) in
      let* y := lift (getInt o a env 1) in
      ret (NEXT, <[dest := VInt (x * y)]> env)
  | OpSub =>
      let* x := lift (getInt o a env 0) in
      let* y := lift (getInt o a env 1) in
      ret (NEXT, <[dest := VInt (x - y)]> env)
  | OpDiv =>
      let* x := lift (getInt o a env 0) in
      let* y := lift (getInt o a env 1) in
      let* val := lift (bigint_div x y) in
      ret (NEXT, <[dest := VInt val]> env)
  | OpLe =>
      let* x := lift (getInt o a env 0) in
      let* y := lift (getInt o a env 1) in
      ret (NEXT, <[dest := VBool (x <=? y)%Z]> env)
  | OpLt =>
      let* x := lift (getInt o a env 0) in
      let* y := lift (getInt o a env 1) in
      ret (NEXT, <[dest := VBool (x <? y)%Z]> env)
  | OpGt =>
      let* x := lift (getInt o a env 0) in
      let* y := lift (getInt o a env 1) in
      ret (NEXT, <[dest := VBool (x >? y)%Z]> env)
  | OpGe =>
      let* x := lift (getInt o a env 0) in
      let* y := lift (getInt o a env 1) in
      ret (NEXT, <[dest := VBool (x >=? y)%Z]> env)
  | OpEq =>
      let* x := lift (getInt o a env 0) in
      let* y := lift (getInt o a env 1) in
      ret (NEXT, <[dest := VBool (x =? y)%Z]> env)
  | OpNot =>
      let* x := lift (getBool o a env 0) in
      ret (NEXT, <[dest := VBool (negb x)]> env)
  | OpAnd =>
      (* x && y: the host evaluates y only when x is true *)
      let* x := lift (getBool o a env 0) in
      let* val := if x then lift (getBool o a env 1) else ret x in
      ret (NEXT, <[dest := VBool val]> env)
  | OpOr =>
      (* x || y: the host evaluates y only when x is false *)
      let* x := lift (getBool o a env 0) in
      let* val := if x then ret x else lift (getBool o a env 1) in
      ret (NEXT, <[dest := VBool val]> env)
  | OpAlloc =>
      let* amt := lift (getInt o a env 0) in
      let* ptr := alloc ty (Number amt) in
      ret (NEXT, <[dest := VPtr ptr]> env)
  | OpLoad =>
      (* the heap of the model never hands out an unwritten slot, so the
         source's test of the value read against undefined and null has
         nothing to catch *)
      let* ptr := lift (getPtr o a env 0) in
      let* val := fromHeap (Heap.read (loc ptr)) in
      ret (NEXT, <[dest := val]> env)
  | OpPtradd =>
      let* ptr := lift (getPtr o a env 0) in
      let* val := lift (getInt o a env 1) in
      ret (NEXT, <[dest := VPtr {| loc := Key_add (loc ptr) (Number val);
                                  type := type ptr |}]> env)
  end.

(** [instr.args.map(i => get(env, i).toString())] *)
Fixpoint printValues (env : Env) (a : list Ident) : E (list string) :=
  match a with
  | [] => inr []
  | i :: rest =>
      let? v := get env i in
      let? vs := printValues env rest in
      inr (toString v :: vs)
  end.

(** [args[i]] as a label; [checkArgs] has made sure it is there. *)
Definition labelAt (a : list Ident) (i : nat) : Ident :=
  default "undefined" (a !! i).

Definition evalEffectOp (op : EffectOpCode) (a : list Ident) (env : Env)
    : M (Action * Env) :=
  let o := EffectOp op in
  match op with
  | OpPrint =>
      let* values := lift (printValues env a) in
      let* _ := console_log values in
      ret (NEXT, env)
  | OpJmp => ret (ActLabel (labelAt a 0), env)
  | OpBr =>
      let* cond := lift (getBool o a env 0) in
      if cond then ret (ActLabel (labelAt a 1), env)
      else ret (ActLabel (labelAt a 2), env)
  | OpRet =>
      let argCount := length a in
      if bool_decide (argCount = 0) then ret (ActEnd None, env)
      else if bool_decide (argCount = 1) then
        let* val := lift (getAt env a 0) in
        ret (ActEnd (Some val), env)
      else throw (BriliError ("ret takes 0 or 1 argument(s); got " ++ pretty argCount))
  | OpNop => ret (NEXT, env)
  | OpFree =>
      let* val := lift (getPtr o a env 0) in
      let* _ := onHeap_ (Heap.free (loc val)) in
      ret (NEXT, env)
  | OpStore =>
      let* target := lift (getPtr o a env 0) in
      match type target with
      | TInt =>
          let* v := lift (getInt o a env 1) in
          let* _ := onHeap_ (Heap.write (loc target) (VInt v)) in
          ret (NEXT, env)
      | TBool =>
          let* v := lift (getBool o a env 1) in
          let* _ := onHeap_ (Heap.write (loc target) (VBool v)) in
          ret (NEXT, env)
      | TPtr =>
          let* v := lift (getPtr o a env 1) in
          let* _ := onHeap_ (Heap.write (loc target) (VPtr v)) in
          ret (NEXT, env)
      end
  end.

(** [const]: "Ensure that JSON ints get represented appropriately." *)
Definition literal (value : Literal) : Value :=
  match value with
  | LitNum n => VInt n
  | LitBool b => VBool b
  end.

Definition evalInstr (instr : Instruction) (env : Env) (funcs : list Function)
    : M (Action * Env) :=
  let* _ := lift (checkArgCount instr) in
  match instr with
  | Constant dest _ value => ret (NEXT, <[dest := literal value]> env)
  | ValueOperation op a dest ty => evalValueOp op a dest ty env
  | EffectOperation op a => evalEffectOp op a env
  | CallOperation fname a dest ty => evalCall fname a dest ty env funcs
  end.

End Instr.

(** The inner loop of [evalFuncInEnv], "Search for the label and transfer
    control": the index at which the scan from 0 stops, the length of the
    list when no entry carries the label. *)
Fixpoint searchLabel (label : Ident) (lines : list Line) : nat :=
  match lines with
  | [] => 0
  | Label l :: rest => if bool_decide (l = label) then 0 else S (searchLabel label rest)
  | Instr _ :: rest => S (searchLabel label rest)
  end.

(** The [for] loop of [evalFuncInEnv] from index [i] on. One unit of fuel
    per line visited; a callee runs on what is left. *)
Fixpoint evalLoop (fuel : nat) (func : Function) (funcs : list Function)
    (i : nat) (env : Env) : M ReturnValue :=
  match fuel with
  | 0 => fun _ => OutOfFuel
  | S fuel' =>
      match instrs func !! i with
      | None => ret None
      | Some (Label _) => evalLoop fuel' func funcs (S i) env
      | Some (Instr line) =>
          let* r := evalInstr (fun f e => evalLoop fuel' f funcs 0 e) line env funcs in
          match r with
          | (ActLabel label, env') =>
              let j := searchLabel label (instrs func) in
              if bool_decide (j = length (instrs func))
              then throw (BriliError ("label " ++ label ++ " not found"))
              else evalLoop fuel' func funcs (S j) env'
          | (ActEnd v, _) => ret v
          | (NEXT, env') => evalLoop fuel' func funcs (S i) env'
          end
      end
  end.

Definition evalFuncInEnv (fuel : nat) (func : Function) (funcs : list Function)
    (env : Env) : M ReturnValue :=
  evalLoop fuel func funcs 0 env.

(** ** The host's [parseInt] and [BigInt] *)

(** Characters are code units below 256. White space and line terminators
    among them: TAB, LF, VT, FF, CR, SP and NBSP. *)
Definition isWhiteSpace (c : ascii) : bool :=
  let n := nat_of_ascii c in
  bool_decide (n = 9 ∨ n = 10 ∨ n = 11 ∨ n = 12 ∨ n = 13 ∨ n = 32 ∨ n = 160).

Fixpoint trimStart (s : string) : string :=
  match s with
  | String c r => if isWhiteSpace c then trimStart r else s
  | EmptyString => s
  end.

(** The value of a character as a digit: 0-9, then a-z and A-Z for 10 to 35. *)
Definition digitValue (c : ascii) : option Z :=
  let n := Z.of_nat (nat_of_ascii c) in
  if bool_decide (48 <= n <= 57)%Z then Some (n - 48)%Z
  else if bool_decide (97 <= n <= 122)%Z then Some (n - 87)%Z
  else if bool_decide (65 <= n <= 90)%Z then Some (n - 55)%Z
  else None.

(** The integer that the longest prefix of radix-[R] digits of [s] denotes,
    read on from the digits [acc] already seen ([None]: no digit yet). *)
Fixpoint readDigits (R : Z) (s : string) (acc : option Z) : option Z :=
  match s with
  | String c r =>
      match digitValue c with
      | Some d =>
          if (d <? R)%Z then readDigits R r (Some (default 0%Z acc * R + d)%Z)
          else acc
      | None => acc
      end
  | EmptyString => acc
  end.

(** A leading sign: whether it is a minus, and the string after it. *)
Definition signOf (s : string) : bool * string :=
  match s with
  | String c r =>
      if Ascii.eqb c "-" then (true, r)
      else if Ascii.eqb c "+" then (false, r)
      else (false, s)
  | EmptyString => (false, s)
  end.

(** The first two code units are [0x] or [0X]. *)
Definition hasHexPrefix (s : string) : bool :=
  match s with
  | String c1 (String c2 _) =>
      Ascii.eqb c1 "0" && (Ascii.eqb c2 "x" || Ascii.eqb c2 "X")
  | _ => false
  end.

Definition dropTwo (s : string) : string :=
  match s with
  | String _ (String _ r) => r
  | _ => s
  end.

(** [parseInt(string, radix)] of the host for an absent radix ([None]) or
    the radix 10 or 16: skip leading white space, read a sign, strip a
    [0x]/[0X] prefix (then the radix is 16) unless the radix is 10, read
    the longest prefix of digits, NaN when there is none, and round to a
    double. *)
Definition parseIntRadix (radix : option Z) (s : string) : number :=
  let '(neg, S1) := signOf (trimStart s) in
  let stripPrefix := bool_decide (radix <> Some 10%Z) in
  let '(R, S2) :=
    if stripPrefix && hasHexPrefix S1 then (16%Z, dropTwo S1)
    else (default 10%Z radix, S1) in
  match readDigits R S2 None with
  | None => NaN
  | Some mathInt =>
      match roundDouble mathInt with
      | Some m => Num (if neg then - m else m)
      | None => if neg then NegInf else PosInf
      end
  end.

(** [parseInt(s)], as the interpreter calls it: no radix. *)
Definition parseInt (s : string) : number := parseIntRadix None s.

(** [BigInt(n)] for a host number: a RangeError of the host unless [n] is
    an integer. *)
Definition BigInt (n : number) : E Z :=
  match n with
  | Num z => inr z
  | _ => inl (RangeError ("The number " ++ number_toString n
                          ++ " cannot be converted to a BigInt because it is not an integer"))
  end.

(** ** The driver *)

Definition parseBool (s : string) : E bool :=
  if bool_decide (s = "true") then inr true
  else if bool_decide (s = "false") then inr false
  else inl (BriliError ("boolean argument to main must be 'true'/'false'; got " ++ s)).

(** The loop of [parseMainArguments]; the two lists have the same length
    when it runs. A parameter of type 'ptr' falls through the [switch] and
    is left unbound. *)
Fixpoint bindMain (expected : list Argument) (argv : list string) (newEnv : Env)
    : E Env :=
  match expected, argv with
  | p :: expected', s :: argv' =>
      match atype p with
      | TInt =>
          let? n := BigInt (parseInt s) in
          bindMain expected' argv' (<[aname p := VInt n]> newEnv)
      | TBool =>
          let? b := parseBool s in
          bindMain expected' argv' (<[aname p := VBool b]> newEnv)
      | TPtr => bindMain expected' argv' newEnv
      end
  | _, _ => inr newEnv
  end.

Definition parseMainArguments (expected : list Argument) (argv : list string) : E Env :=
  if bool_decide (length argv ≠ length expected)
  then inl (BriliError ("mismatched main argument arity: expected "
                        ++ pretty (length expected) ++ "; got " ++ pretty (length argv)))
  else bindMain expected argv ∅.

Definition initial : State := {| heap := Heap.empty; out := [] |}.

Definition leak : error :=
  Thrown "Some memory locations have not been freed by end of execution.".

(** [evalProg(prog)]; [argv] is [process.argv.slice(2, process.argv.length)].
    [findFunc] answers a function or throws, so the source's test
    [main === null] is false whenever it is reached. *)
Definition evalProg (fuel : nat) (prog : Program) (argv : list string) : outcome unit :=
  (let* main := lift (findFunc "main" (functions prog)) in
   let* newEnv := lift (parseMainArguments (args main) argv) in
   let* _ := evalFuncInEnv fuel main (functions prog) newEnv in
   fun s => if Heap.isEmpty (heap s) then Done tt s else Raise leak s) initial.

(** What the process does in the end. *)
Inductive exit :=
| Completed (stdout : list string)
| Reported (stdout : list string) (stderr : string)  (* console.error, process.exit(2) *)
| Uncaught (stdout : list string) (e : error)        (* rethrown by main *)
| Running.                                           (* the fuel ran out *)

(** [main()]: only a [BriliError] is caught and reported, anything else is
    thrown again. *)
Definition main (fuel : nat) (prog : Program) (argv : list string) : exit :=
  match evalProg fuel prog argv with
  | Done _ s => Completed (out s)
  | Raise (BriliError message) s =>
      Reported (out s) ("Brili interpreter error: " ++ message)
  | Raise e s => Uncaught (out s) e
  | OutOfFuel => Running
  end.

(** ** The earlier interpreter (bril-ts/brili.ts) *)

Module Legacy.

(** The version of the interpreter without a heap. Its values are booleans
    and integers, everything it throws is a plain string, and function
    lookup answers the first function of the name, or null. The state is
    the one of the later version; its heap component is not touched. *)

(** [type Value = boolean | BigInt] *)
Inductive Value :=
| VBool (b : bool)
| VInt (n : Z).

Definition ReturnValue := option Value.

Definition typeof (v : Value) : string :=
  match v with
  | VInt _ => "bigint"
  | VBool _ => "boolean"
  end.

(** What [console.log(v)] prints for a value: the host marks a BigInt with
    the suffix [n]. *)
Definition inspect (v : Value) : string :=
  match v with
  | VInt n => pretty n ++ "n"
  | VBool true => "true"
  | VBool false => "false"
  end.

Definition get (env : gmap string Value) (ident : Ident) : E Value :=
  match env !! ident with
  | None => inl (Thrown ("undefined variable " ++ ident))
  | Some val => inr val
  end.

(** [get(env, args[index])], see [getAt] of the later version. *)
Definition getAt (env : gmap string Value) (a : list Ident) (index : nat) : E Value :=
  match a !! index with
  | Some ident => get env ident
  | None => inl (Thrown "undefined variable undefined")
  end.

(** [findFunc]: the first function of that name in the table, [None] for
    the source's [null]. *)
Fixpoint findFunc (func : Ident) (funcs : list Function) : option Function :=
  match funcs with
  | [] => None
  | f :: rest => if bool_decide (name f = func) then Some f else findFunc func rest
  end.

(** The loop of the [call] case over the parameter positions: no arity
    check before it, and the type check in it is commented out. *)
Fixpoint bindArgs (env : gmap string Value) (params : list Argument)
    (cargs : list Ident) (i : nat) (newEnv : gmap string Value)
    : E (gmap string Value) :=
  match params with
  | [] => inr newEnv
  | p :: params' =>
      let? value := getAt env cargs i in
      bindArgs env params' cargs (S i) (<[aname p := value]> newEnv)
  end.

Section Call.

Variable evalFuncInEnv :
  Function -> list Function -> gmap string Value -> M ReturnValue.

(** The [call] case of [evalInstr]; [ret] is [instr.ret], the destination
    and its type when the call expects a value. The updated environment is
    returned with the action, which is always NEXT. *)
Definition evalCall (fname : Ident) (cargs : list Ident) (ret_ : option (Ident * Type_))
    (env : gmap string Value) (funcs : list Function) : M (gmap string Value) :=
  match findFunc fname funcs with
  | None => throw (Thrown ("undefined function " ++ fname))
  | Some func =>
      let* newEnv := lift (bindArgs env (args func) cargs 0 ∅) in
      let* retVal := evalFuncInEnv func funcs newEnv in
      match ret_ with
      | None =>
          match retVal with
          | Some _ => throw (Thrown "unexpected value returned by void function")
          | None => ret env
          end
      | Some (dest, ty) =>
          match retVal with
          | None => throw (Thrown "nothing returned from non-void function")
          | Some v =>
              if bool_decide (brilTypeToDynamicType ty ≠ typeof v)
              then throw (Thrown "type of value returned by function does not match declaration")
              else
                let* _ := console_log [dest] in
                let* _ := console_log [inspect v] in
                ret (<[dest := v]> env)
          end
      end
  end.

(** [evalFunc]: run a function in an empty environment. *)
Definition evalFunc (func : Function) (funcs : list Function) : M unit :=
  let* _ := evalFuncInEnv func funcs ∅ in
  ret tt.

(** [evalProg]: the arguments of the process are not read. *)
Definition evalProg (prog : Program) : outcome unit :=
  match findFunc "main" (functions prog) with
  | None => console_log ["warning: no main function defined, doing nothing"] initial
  | Some main => evalFunc main (functions prog) initial
  end.

End Call.

End Legacy.

(** * The vocabulary of the properties *)

(** An error that the interpreter detects and raises itself (a
    [BriliError], a thrown message, a fault of its heap), as opposed to an
    exception of the host. *)
Definition interpreter_fault (e : error) : bool :=
  match e with
  | BriliError _ | Thrown _ | HeapError _ => true
  | RangeError _ => false
  end.

(** Every call-site argument is bound in the calling environment. *)
Definition all_bound (env : Env) (cargs : list Ident) : Prop :=
  forall k x, cargs !! k = Some x -> is_Some (env !! x).

(** Position [j] holds an argument whose runtime type is not the declared
    type of the parameter at that position. *)
Definition mismatch_at (env : Env) (params : list Argument) (cargs : list Ident)
    (j : nat) : Prop :=
  exists p x v,
    params !! j = Some p /\ cargs !! j = Some x /\ env !! x = Some v
    /\ typeOf v <> atype p.

(** A block is live from its [alloc] to its [free]. *)
Definition live (h : Heap.t Value) (b : nat) : Prop := is_Some (Heap.storage h !! b).

(** Identifiers are issued in increasing order: a live block has an
    identifier below the counter. *)
Definition heap_wf (h : Heap.t Value) : Prop :=
  forall b, live h b -> b < Heap.count h.

(** A decimal digit character. *)
Definition isDecimalDigit (c : ascii) : Prop := 48 <= nat_of_ascii c <= 57.

Fixpoint all_digits (s : string) : Prop :=
  match s with
  | EmptyString => True
  | String c r => isDecimalDigit c /\ all_digits r
  end.

(** No later parameter carries the name of the parameter [p] at position [i]. *)
Definition last_of_its_name (expected : list Argument) (i : nat) (p : Argument) : Prop :=
  forall j q, i < j -> expected !! j = Some q -> aname q <> aname p.

(** [c2] answers as [c1] wherever [c1] has an answer. *)
Definition extends {A} (c1 c2 : Function -> Env -> M A) : Prop :=
  forall f e s, c1 f e s <> OutOfFuel -> c2 f e s = c1 f e s.

(** [m] keeps [P] true of the state, whether it returns or raises. *)
Definition preserves {A} (P : State -> Prop) (m : M A) : Prop :=
  forall s, P s ->
    match m s with
    | Done _ s' => P s'
    | Raise _ s' => P s'
    | OutOfFuel => True
    end.

Definition wf_state (s : State) : Prop := heap_wf (heap s).

(** The operations on two integers. *)
Definition int_binop (op : ValueOpCode) : bool :=
  match op with
  | OpAdd | OpMul | OpSub | OpDiv | OpLt | OpLe | OpGt | OpGe | OpEq => true
  | _ => false
  end.

(** Every run of [m] that returns, returns a result with [Q]. *)
Definition returns {A} (Q : A -> Prop) (m : M A) : Prop :=
  forall s a s', m s = Done a s' -> Q a.

(** [m] answers without running out of fuel. *)
Definition answers {A} (m : M A) : Prop := forall s, m s <> OutOfFuel.

(** An instruction that transfers control or enters another function. *)
Definition transfers (line : Line) : bool :=
  match line with
  | Instr (EffectOperation OpJmp _) | Instr (EffectOperation OpBr _)
  | Instr (CallOperation _ _ _ _) => true
  | _ => false
  end.

(** The variable an instruction may bind. *)
Definition destination (instr : Instruction) : option Ident :=
  match instr with
  | Constant dest _ _ => Some dest
  | ValueOperation _ _ dest _ => Some dest
  | EffectOperation _ _ => None
  | CallOperation _ _ dest _ => dest
  end.

(** The instructions that act on the state: the heap or the output. *)
Definition effectful (instr : Instruction) : bool :=
  match instr with
  | ValueOperation OpAlloc _ _ _ => true
  | EffectOperation OpPrint _ | EffectOperation OpFree _
  | EffectOperation OpStore _ => true
  | CallOperation _ _ _ _ => true
  | _ => false
  end.

(** A property of the state that does not look at the heap and that
    printing one more line keeps. *)
Definition output_invariant (P : State -> Prop) : Prop :=
  (forall s h, P s -> P {| heap := h; out := out s |})
  /\ (forall s line, P s -> P {| heap := heap s; out := out s ++ [line] |}).

(** * Sample programs *)

Definition and_prog : Program :=
  {| functions :=
       [ {| name := "main"; args := []; rtype := None;
            instrs :=
              [ Instr (Constant "a" (Prim TBool) (LitBool false));
                Instr (ValueOperation OpAnd ["a"; "b"] "c" (Prim TBool));
                Instr (EffectOperation OpPrint ["c"]) ] |} ] |}.

Definition div_prog : Program :=
  {| functions :=
       [ {| name := "main"; args := []; rtype := None;
            instrs :=
              [ Instr (Constant "a" (Prim TInt) (LitNum 1));
                Instr (Constant "b" (Prim TInt) (LitNum 0));
                Instr (ValueOperation OpDiv ["a"; "b"] "c" (Prim TInt)) ] |} ] |}.

Definition typed_callee : Function :=
  {| name := "f"; args := [ {| aname := "x"; atype := TInt |} ]; rtype := Some TInt;
     instrs := [ Instr (EffectOperation OpPrint ["x"]);
                 Instr (EffectOperation OpRet ["x"]) ] |}.

Definition silent_callee : Function :=
  {| name := "g"; args := []; rtype := Some TInt;
     instrs := [ Instr (EffectOperation OpNop []) ] |}.

Definition leaky_prog : Program :=
  {| functions :=
       [ {| name := "main"; args := []; rtype := None;
            instrs :=
              [ Instr (Constant "n" (Prim TInt) (LitNum 1));
                Instr (ValueOperation OpAlloc ["n"] "p" (PtrTo (Prim TInt))) ] |} ] |}.

Definition tidy_prog : Program :=
  {| functions :=
       [ {| name := "main"; args := []; rtype := None;
            instrs :=
              [ Instr (Constant "n" (Prim TInt) (LitNum 1));
                Instr (ValueOperation OpAlloc ["n"] "p" (PtrTo (Prim TInt)));
                Instr (EffectOperation OpFree ["p"]) ] |} ] |}.

Definition jumper : Function :=
  {| name := "main"; args := []; rtype := None;
     instrs :=
       [ Instr (EffectOperation OpJmp ["l"]);
         Instr (EffectOperation OpPrint []);
         Label "l";
         Instr (EffectOperation OpNop []);
         Label "l" ] |}.

Definition brancher : Function :=
  {| name := "main"; args := []; rtype := None;
     instrs :=
       [ Instr (EffectOperation OpBr ["c"; "yes"; "no"]);
         Label "yes";
         Instr (EffectOperation OpRet ["c"]);
         Instr (EffectOperation OpPrint ["c"]) ] |}.

Definition void_value_callee : Function :=
  {| name := "v"; args := []; rtype := None;
     instrs := [ Instr (Constant "one" (Prim TInt) (LitNum 1));
                 Instr (EffectOperation OpPrint ["one"]);
                 Instr (EffectOperation OpRet ["one"]) ] |}.

Definition late_error_prog : Program :=
  {| functions :=
       [ {| name := "main"; args := []; rtype := None;
            instrs :=
              [ Instr (Constant "a" (Prim TInt) (LitNum 1));
                Instr (EffectOperation OpPrint ["a"]);
                Instr (EffectOperation OpFree ["a"]) ] |} ] |}.

Definition plain_function : Function :=
  {| name := "p"; args := []; rtype := None;
     instrs :=
       [ Instr (Constant "a" (Prim TInt) (LitNum 2));
         Label "here";
         Instr (ValueOperation OpMul ["a"; "a"] "b" (Prim TInt));
         Instr (EffectOperation OpRet ["b"]) ] |}.

(** * Properties *)

(** ** Runtime types and argument access *)

Lemma typeof_typeOf (t : Type_) (v : Value) :
  brilTypeToDynamicType t = typeof v <-> t = typeOf v.
Proof. destruct t, v; simpl; split; intros H; congruence. Qed.

Lemma getAt_bound env (a : list Ident) i x v :
  a !! i = Some x -> env !! x = Some v -> getAt env a i = inr v.
Proof. intros Ha Hx. unfold getAt, get. now rewrite Ha, Hx. Qed.

Lemma getAt_unbound env (a : list Ident) i x :
  a !! i = Some x -> env !! x = None ->
  getAt env a i = inl (BriliError ("undefined variable " ++ x)).
Proof. intros Ha Hx. unfold getAt, get. now rewrite Ha, Hx. Qed.

Lemma getArgument_ok op env (a : list Ident) i x v t :
  a !! i = Some x -> env !! x = Some v -> typeOf v = t ->
  getArgument op a env i t = inr v.
Proof.
  intros Ha Hx Ht. unfold getArgument. rewrite (getAt_bound _ _ _ _ _ Ha Hx). simpl.
  rewrite bool_decide_false; [reflexivity|].
  intros Hne. apply Hne. apply typeof_typeOf. congruence.
Qed.

Lemma getArgument_mismatch op env (a : list Ident) i x v t :
  a !! i = Some x -> env !! x = Some v -> typeOf v <> t ->
  getArgument op a env i t
  = inl (BriliError (op_name op ++ " argument " ++ pretty i ++ " must be a {brilTyp}")).
Proof.
  intros Ha Hx Ht. unfold getArgument. rewrite (getAt_bound _ _ _ _ _ Ha Hx). simpl.
  rewrite bool_decide_true; [reflexivity|].
  intros Heq. apply Ht. symmetry. now apply typeof_typeOf.
Qed.

Lemma getInt_ok op env (a : list Ident) i x n :
  a !! i = Some x -> env !! x = Some (VInt n) -> getInt op a env i = inr n.
Proof.
  intros Ha Hx. unfold getInt.
  now rewrite (getArgument_ok op env a i x (VInt n) TInt Ha Hx eq_refl).
Qed.

Lemma getBool_ok op env (a : list Ident) i x b :
  a !! i = Some x -> env !! x = Some (VBool b) -> getBool op a env i = inr b.
Proof.
  intros Ha Hx. unfold getBool.
  now rewrite (getArgument_ok op env a i x (VBool b) TBool Ha Hx eq_refl).
Qed.

Lemma getPtr_ok op env (a : list Ident) i x p :
  a !! i = Some x -> env !! x = Some (VPtr p) -> getPtr op a env i = inr p.
Proof.
  intros Ha Hx. unfold getPtr. now rewrite (getAt_bound _ _ _ _ _ Ha Hx).
Qed.

Lemma getInt_mismatch op env (a : list Ident) i x v :
  a !! i = Some x -> env !! x = Some v -> typeOf v <> TInt ->
  getInt op a env i
  = inl (BriliError (op_name op ++ " argument " ++ pretty i ++ " must be a {brilTyp}")).
Proof.
  intros Ha Hx Ht. unfold getInt.
  now rewrite (getArgument_mismatch op env a i x v TInt Ha Hx Ht).
Qed.

Lemma getBool_mismatch op env (a : list Ident) i x v :
  a !! i = Some x -> env !! x = Some v -> typeOf v <> TBool ->
  getBool op a env i
  = inl (BriliError (op_name op ++ " argument " ++ pretty i ++ " must be a {brilTyp}")).
Proof.
  intros Ha Hx Ht. unfold getBool.
  now rewrite (getArgument_mismatch op env a i x v TBool Ha Hx Ht).
Qed.

Lemma getPtr_mismatch op env (a : list Ident) i x v :
  a !! i = Some x -> env !! x = Some v -> typeOf v <> TPtr ->
  getPtr op a env i
  = inl (Thrown (op_name op ++ " argument " ++ pretty i ++ " must be a Pointer")).
Proof.
  intros Ha Hx Ht. unfold getPtr. rewrite (getAt_bound _ _ _ _ _ Ha Hx). simpl.
  destruct v; simpl in *; congruence.
Qed.

(** ** Fuel *)

Lemma evalInstr_extends c1 c2 instr (env : Env) funcs s :
  extends c1 c2 ->
  evalInstr c1 instr env funcs s <> OutOfFuel ->
  evalInstr c2 instr env funcs s = evalInstr c1 instr env funcs s.
Proof.
  intros Hext. unfold evalInstr, bind.
  destruct (lift (checkArgCount instr) s) as [[] s1|e s1|]; try reflexivity.
  destruct instr as [dest ty value|op a dest ty|op a|fname a dest ty]; try reflexivity.
  unfold evalCall, bind.
  destruct (lift (findFunc fname funcs) s1) as [func s2|e s2|]; try reflexivity.
  case_bool_decide; [reflexivity|].
  destruct (lift (bindArgs env (args func) a 0 ∅) s2) as [newEnv s3|e s3|];
    try reflexivity.
  intros Hrun.
  assert (Hc : c1 func newEnv s3 <> OutOfFuel).
  { intros Hc. apply Hrun. now rewrite Hc. }
  now rewrite (Hext _ _ _ Hc).
Qed.

(** More fuel does not change an outcome that was reached. *)
Lemma evalLoop_fuel_mono fuel :
  forall fuel' func funcs i (env : Env) s,
    fuel <= fuel' ->
    evalLoop fuel func funcs i env s <> OutOfFuel ->
    evalLoop fuel' func funcs i env s = evalLoop fuel func funcs i env s.
Proof.
  induction fuel as [|fuel IH]; intros fuel' func funcs i env s Hle Hrun.
  - now contradiction Hrun.
  - destruct fuel' as [|fuel']; [lia|]. simpl in *.
    destruct (instrs func !! i) as [[line|l]|]; [| |reflexivity].
    + assert (Hext : extends (fun f e => evalLoop fuel f funcs 0 e)
                             (fun f e => evalLoop fuel' f funcs 0 e)).
      { intros f e s0 Hs0. apply IH; [lia|assumption]. }
      unfold bind in *.
      destruct (evalInstr (fun f e => evalLoop fuel f funcs 0 e) line env funcs s)
        as [[act env'] s1|e s1|] eqn:Hi.
      * rewrite (evalInstr_extends _ _ line env funcs s Hext) by (rewrite Hi; discriminate).
        rewrite Hi. destruct act as [label| |v]; try reflexivity.
        -- case_bool_decide; [reflexivity|]. apply IH; [lia|assumption].
        -- apply IH; [lia|assumption].
      * rewrite (evalInstr_extends _ _ line env funcs s Hext) by (rewrite Hi; discriminate).
        now rewrite Hi.
      * now contradiction Hrun.
    + apply IH; [lia|assumption].
Qed.

(** A run that returned returns the same with more fuel. *)
Lemma evalFuncInEnv_fuel_mono fuel fuel' func funcs (env : Env) s rv s' :
  fuel <= fuel' ->
  evalFuncInEnv fuel func funcs env s = Done rv s' ->
  evalFuncInEnv fuel' func funcs env s = Done rv s'.
Proof.
  intros Hle Hrun. unfold evalFuncInEnv in *.
  rewrite (evalLoop_fuel_mono fuel fuel' func funcs 0 env s Hle); [assumption|].
  rewrite Hrun. discriminate.
Qed.

(** ** [and] and [or] *)

Section Logic.
Variable callee : Function -> Env -> M ReturnValue.

(** The second operand of [and] is neither looked up nor type-checked when
    the first is false. *)
Lemma and_false_skips_second x y dest ty env funcs st :
  env !! x = Some (VBool false) ->
  evalInstr callee (ValueOperation OpAnd [x; y] dest ty) env funcs st
  = Done (NEXT, <[dest := VBool false]> env) st.
Proof.
  intros Hx. unfold evalInstr, bind, lift. simpl.
  unfold evalValueOp, bind, lift.
  now rewrite (getBool_ok _ env [x; y] 0 x false eq_refl Hx).
Qed.

(** Likewise the second operand of [or] when the first is true. *)
Lemma or_true_skips_second x y dest ty env funcs st :
  env !! x = Some (VBool true) ->
  evalInstr callee (ValueOperation OpOr [x; y] dest ty) env funcs st
  = Done (NEXT, <[dest := VBool true]> env) st.
Proof.
  intros Hx. unfold evalInstr, bind, lift. simpl.
  unfold evalValueOp, bind, lift.
  now rewrite (getBool_ok _ env [x; y] 0 x true eq_refl Hx).
Qed.

(** When the first operand does not decide the result, the second is
    resolved and checked. *)
Lemma and_true_checks_second x y dest ty env funcs st :
  env !! x = Some (VBool true) ->
  evalInstr callee (ValueOperation OpAnd [x; y] dest ty) env funcs st
  = match getBool (ValueOp OpAnd) [x; y] env 1 with
    | inl e => Raise e st
    | inr b => Done (NEXT, <[dest := VBool b]> env) st
    end.
Proof.
  intros Hx. unfold evalInstr, bind, lift. simpl.
  unfold evalValueOp, bind, lift.
  rewrite (getBool_ok _ env [x; y] 0 x true eq_refl Hx).
  now destruct (getBool _ _ _ 1).
Qed.

End Logic.

(** C1. The claim asks that [and] and [or] resolve and type-check both
    operands whatever the first one is. The interpreter does not: with the
    first operand false, an [and] whose second operand is unbound, or bound
    to an integer, binds the destination to false and goes on; likewise an
    [or] whose first operand is true. A whole program with an unbound
    second operand runs to completion and prints the result. *)
Theorem and_or_short_circuit :
  let idle : Function -> Env -> M ReturnValue := fun _ _ => ret None in
  let f : Env := {[ "a" := VBool false ]} in
  let fi : Env := <[ "b" := VInt 5 ]> {[ "a" := VBool false ]} in
  let t : Env := {[ "a" := VBool true ]} in
  let ti : Env := <[ "b" := VInt 5 ]> {[ "a" := VBool true ]} in
  evalInstr idle (ValueOperation OpAnd ["a"; "b"] "c" (Prim TBool)) f [] initial
    = Done (NEXT, <["c" := VBool false]> f) initial
  /\ evalInstr idle (ValueOperation OpAnd ["a"; "b"] "c" (Prim TBool)) fi [] initial
    = Done (NEXT, <["c" := VBool false]> fi) initial
  /\ evalInstr idle (ValueOperation OpOr ["a"; "b"] "c" (Prim TBool)) t [] initial
    = Done (NEXT, <["c" := VBool true]> t) initial
  /\ evalInstr idle (ValueOperation OpOr ["a"; "b"] "c" (Prim TBool)) ti [] initial
    = Done (NEXT, <["c" := VBool true]> ti) initial
  /\ main 10 and_prog [] = Completed ["false"].
Proof.
  intros idle f fi t ti.
  split; [now apply and_false_skips_second|].
  split; [now apply and_false_skips_second|].
  split; [now apply or_true_skips_second|].
  split; [now apply or_true_skips_second|].
  vm_compute. reflexivity.
Qed.

(** ** [div] *)

(** C2, as stated, fails: a [div] by zero is not turned into a fault of the
    interpreter. The BigInt division of the host raises its RangeError,
    and [main], which reports a [BriliError] only, throws it again. *)
Lemma div_by_zero_not_reported :
  let env : Env := <[ "b" := VInt 0 ]> {[ "a" := VInt 1 ]} in
  evalInstr (fun _ _ => ret None) (ValueOperation OpDiv ["a"; "b"] "c" (Prim TInt))
    env [] initial
    = Raise (RangeError "Division by zero") initial
  /\ interpreter_fault (RangeError "Division by zero") = false
  /\ main 10 div_prog [] = Uncaught [] (RangeError "Division by zero").
Proof. vm_compute. split; [reflexivity|split; reflexivity]. Qed.

(** C2, amended. For a [div] whose operands are bound to the integers [a]
    and [b]: when [b] is 0 the evaluation stops with the RangeError of the
    host for a BigInt division by zero, nothing is bound and the state is
    as before; when [b] is not 0 and both are nonnegative the destination
    is bound to the truncating quotient [q], the one with
    [b * q <= a < b * (q + 1)]. *)
Theorem div_semantics (callee : Function -> Env -> M ReturnValue)
    x y dest ty (env : Env) funcs st (a b : Z) :
  env !! x = Some (VInt a) ->
  env !! y = Some (VInt b) ->
  (b = 0%Z ->
     evalInstr callee (ValueOperation OpDiv [x; y] dest ty) env funcs st
     = Raise (RangeError "Division by zero") st)
  /\ (b <> 0%Z -> (0 <= a)%Z -> (0 <= b)%Z ->
     evalInstr callee (ValueOperation OpDiv [x; y] dest ty) env funcs st
     = Done (NEXT, <[dest := VInt (Z.quot a b)]> env) st
     /\ (b * Z.quot a b <= a < b * (Z.quot a b + 1))%Z).
Proof.
  intros Hx Hy.
  assert (Hrun : evalInstr callee (ValueOperation OpDiv [x; y] dest ty) env funcs st
                 = match bigint_div a b with
                   | inl e => Raise e st
                   | inr q => Done (NEXT, <[dest := VInt q]> env) st
                   end).
  { unfold evalInstr, bind, lift. simpl. unfold evalValueOp, bind, lift.
    rewrite (getInt_ok _ env [x; y] 0 x a eq_refl Hx).
    rewrite (getInt_ok _ env [x; y] 1 y b eq_refl Hy).
    now destruct (bigint_div a b). }
  split.
  - intros ->. now rewrite Hrun.
  - intros Hb Ha Hb'. rewrite Hrun. unfold bigint_div.
    destruct (Z.eqb_spec b 0); [contradiction|]. split; [reflexivity|].
    rewrite Z.quot_div_nonneg by lia.
    pose proof (Z.mul_div_le a b ltac:(lia)).
    pose proof (Z.mul_succ_div_gt a b ltac:(lia)). lia.
Qed.

Lemma div_semantics_witness :
  let idle : Function -> Env -> M ReturnValue := fun _ _ => ret None in
  let env : Env := <[ "b" := VInt 2 ]> {[ "a" := VInt 7 ]} in
  let env0 : Env := <[ "b" := VInt 0 ]> {[ "a" := VInt 7 ]} in
  evalInstr idle (ValueOperation OpDiv ["a"; "b"] "c" (Prim TInt)) env [] initial
    = Done (NEXT, <["c" := VInt 3]> env) initial
  /\ evalInstr idle (ValueOperation OpDiv ["a"; "b"] "c" (Prim TInt)) env0 [] initial
    = Raise (RangeError "Division by zero") initial.
Proof.
  intros idle env env0. split.
  - exact (proj1 (proj2 (div_semantics idle "a" "b" "c" (Prim TInt)
                           env [] initial 7 2 eq_refl eq_refl)
                   ltac:(lia) ltac:(lia) ltac:(lia))).
  - exact (proj1 (div_semantics idle "a" "b" "c" (Prim TInt)
                    env0 [] initial 7 0 eq_refl eq_refl) eq_refl).
Defined.

(** ** Calls *)

Lemma bindArgs_mismatch env cargs params :
  forall i newEnv,
    i + length params = length cargs ->
    (exists j p x v,
        params !! j = Some p /\ cargs !! (i + j) = Some x /\ env !! x = Some v
        /\ typeOf v <> atype p) ->
    exists msg,
      bindArgs env params cargs i newEnv = inl (BriliError msg)
      /\ (all_bound env cargs -> msg = "function argument type mismatch").
Proof.
  induction params as [|p params IH]; intros i newEnv Hlen (j & q & x & v & Hq & Hx & Hv & Hty).
  - now rewrite lookup_nil in Hq.
  - simpl in Hlen. simpl.
    destruct (cargs !! i) as [x0|] eqn:Hx0.
    2:{ apply lookup_ge_None in Hx0. lia. }
    destruct (env !! x0) as [v0|] eqn:Hv0.
    2:{ rewrite (getAt_unbound _ _ _ _ Hx0 Hv0). simpl. eexists. split; [reflexivity|].
        intros Hb. destruct (Hb _ _ Hx0) as [? Hsome]. congruence. }
    rewrite (getAt_bound _ _ _ _ _ Hx0 Hv0). simpl.
    destruct (decide (brilTypeToDynamicType (atype p) = typeof v0)) as [Heq|Hne].
    + rewrite bool_decide_false by (intros Hn; now apply Hn).
      destruct j as [|j].
      * simpl in Hq. injection Hq as <-. rewrite Nat.add_0_r in Hx.
        rewrite Hx in Hx0. injection Hx0 as <-. rewrite Hv in Hv0. injection Hv0 as <-.
        exfalso. apply Hty. symmetry. now apply typeof_typeOf.
      * apply IH; [lia|]. exists j, q, x, v. simpl in Hq.
        replace (S i + j) with (i + S j) by lia. auto.
    + rewrite bool_decide_true by assumption. eexists. split; [reflexivity|auto].
Qed.

(** C3. For a call to the (uniquely named) function [func]: when the
    number of call-site arguments differs from the number of declared
    parameters, the call raises the arity error; when the numbers agree and
    some argument is bound to a value whose runtime type is not the
    declared type of its parameter, the call raises a [BriliError], the
    type error "function argument type mismatch" when all arguments are
    bound. In both cases the state (heap and output) is as before the call,
    and the outcome is the same whatever running the callee would do: the
    callee is not entered. *)
Theorem call_checked_before_callee (callee : Function -> Env -> M ReturnValue)
    fname cargs dest ty (env : Env) funcs st func :
  findFunc fname funcs = inr func ->
  (length (args func) <> length cargs ->
     evalInstr callee (CallOperation fname cargs dest ty) env funcs st
     = Raise (BriliError ("function expected " ++ pretty (length (args func))
                          ++ " arguments, got " ++ pretty (length cargs))) st)
  /\ (length (args func) = length cargs ->
      (exists j, mismatch_at env (args func) cargs j) ->
      exists msg,
        evalInstr callee (CallOperation fname cargs dest ty) env funcs st
        = Raise (BriliError msg) st
        /\ (all_bound env cargs -> msg = "function argument type mismatch")).
Proof.
  intros Hf. unfold evalInstr, bind, lift. simpl. unfold evalCall, bind, lift.
  rewrite Hf. split.
  - intros Hlen. now rewrite bool_decide_true.
  - intros Hlen (j & p & x & v & Hp & Hx & Hv & Hty).
    rewrite bool_decide_false by (intros Hn; now apply Hn).
    destruct (bindArgs_mismatch env cargs (args func) 0 ∅) as (msg & Hbind & Hmsg).
    + lia.
    + exists j, p, x, v. auto.
    + exists msg. now rewrite Hbind.
Qed.

Lemma call_checked_before_callee_witness :
  let funcs := [typed_callee] in
  let callee : Function -> Env -> M ReturnValue := fun f e => evalLoop 10 f funcs 0 e in
  let env : Env := {[ "a" := VBool true ]} in
  evalInstr callee (CallOperation "f" ["a"; "a"] None None) env funcs initial
    = Raise (BriliError "function expected 1 arguments, got 2") initial
  /\ exists msg,
      evalInstr callee (CallOperation "f" ["a"] None None) env funcs initial
      = Raise (BriliError msg) initial
      /\ (all_bound env ["a"] -> msg = "function argument type mismatch").
Proof.
  intros funcs callee env. split.
  - exact (proj1 (call_checked_before_callee callee "f" ["a"; "a"] None None env funcs
                    initial typed_callee eq_refl)
                 ltac:(simpl; lia)).
  - refine (proj2 (call_checked_before_callee callee "f" ["a"] None None env funcs
                     initial typed_callee eq_refl) eq_refl _).
    exists 0, {| aname := "x"; atype := TInt |}, "a", (VBool true).
    repeat split; simpl; discriminate.
Defined.

Section ValueCall.
Variable callee : Function -> Env -> M ReturnValue.

(** What [evalCall] does once the callee has been found and its arguments
    bound: run it, then reconcile what it returned with the call site. *)
Lemma evalCall_bound fname cargs dest ty (env : Env) funcs st func newEnv :
  findFunc fname funcs = inr func ->
  length (args func) = length cargs ->
  bindArgs env (args func) cargs 0 ∅ = inr newEnv ->
  evalInstr callee (CallOperation fname cargs dest ty) env funcs st
  = match callee func newEnv st with
    | Done retVal st' =>
        match dest, ty with
        | None, None =>
            match retVal with
            | Some _ => Raise (BriliError "unexpected value returned without destination") st'
            | None =>
                match rtype func with
                | Some t => Raise (BriliError ("non-void function (type: " ++ type_name t
                                               ++ ") doesn't return anything")) st'
                | None => Done (NEXT, env) st'
                end
            end
        | Some _, None =>
            Raise (BriliError "function call must include a type if it has a destination") st'
        | None, Some _ =>
            Raise (BriliError "function call must include a destination if it has a type") st'
        | Some d, Some t =>
            match retVal with
            | None => Raise (BriliError ("non-void function (type: "
                                         ++ rtype_text (rtype func)
                                         ++ ") doesn't return anything")) st'
            | Some v =>
                if bool_decide (typeOf v = t) then
                  if bool_decide (rtype func = Some t)
                  then Done (NEXT, <[d := v]> env) st'
                  else Raise (BriliError "type of value returned by function does not match declaration") st'
                else Raise (BriliError "type of value returned by function does not match destination type") st'
            end
        end
    | Raise e st' => Raise e st'
    | OutOfFuel => OutOfFuel
    end.
Proof.
  intros Hf Hlen Hbind. unfold evalInstr, bind, lift. simpl. unfold evalCall, bind, lift.
  rewrite Hf. rewrite bool_decide_false by (intros Hn; now apply Hn).
  rewrite Hbind. destruct (callee func newEnv st) as [retVal st'|e st'|]; try reflexivity.
  destruct dest as [d|], ty as [t|]; try reflexivity.
  - destruct retVal as [v|]; [|reflexivity].
    destruct (decide (typeOf v = t)) as [Heq|Hne].
    + rewrite bool_decide_false by (intros Hn; apply Hn; apply typeof_typeOf; congruence).
      rewrite (bool_decide_true (typeOf v = t)) by assumption.
      destruct (decide (rtype func = Some t)) as [Hr|Hr].
      * rewrite bool_decide_false by (intros Hn; now apply Hn).
        now rewrite bool_decide_true.
      * rewrite bool_decide_true by assumption. now rewrite bool_decide_false.
    + rewrite bool_decide_true
        by (intros Heq; apply Hne; symmetry; now apply typeof_typeOf).
      now rewrite bool_decide_false.
  - destruct retVal as [v|]; [reflexivity|]. now destruct (rtype func).
Qed.

End ValueCall.

(** C4. A call carrying the destination [d] and the declared type [t], to
    the function [func] whose arguments have been bound into [newEnv], and
    whose run returns [rv] in the state [st'] (with some fuel, hence with
    any larger amount): when [rv] is no value the call raises the
    missing-value error; when [rv] is a value whose runtime type is not [t]
    it raises the destination-type error; when the runtime type is [t] but
    the declared return type of [func] is not [t] it raises the declaration
    error (and whenever that declared type is not [t] the call raises some
    [BriliError]); otherwise the call falls through with [d] bound to the
    value in the caller's environment. *)
Theorem call_value_reconciled fuel fname cargs d t (env : Env) funcs st func newEnv rv st' :
  findFunc fname funcs = inr func ->
  length (args func) = length cargs ->
  bindArgs env (args func) cargs 0 ∅ = inr newEnv ->
  evalFuncInEnv fuel func funcs newEnv st = Done rv st' ->
  forall fuel', fuel <= fuel' ->
  let call :=
    evalInstr (fun f e => evalFuncInEnv fuel' f funcs e)
      (CallOperation fname cargs (Some d) (Some t)) env funcs st in
  (rv = None ->
     call = Raise (BriliError ("non-void function (type: " ++ rtype_text (rtype func)
                               ++ ") doesn't return anything")) st')
  /\ (forall v, rv = Some v -> typeOf v <> t ->
     call = Raise (BriliError "type of value returned by function does not match destination type") st')
  /\ (forall v, rv = Some v -> typeOf v = t -> rtype func <> Some t ->
     call = Raise (BriliError "type of value returned by function does not match declaration") st')
  /\ (rtype func <> Some t -> exists msg, call = Raise (BriliError msg) st')
  /\ (forall v, rv = Some v -> typeOf v = t -> rtype func = Some t ->
     call = Done (NEXT, <[d := v]> env) st').
Proof.
  intros Hf Hlen Hbind Hrun fuel' Hfuel call. subst call.
  rewrite (evalCall_bound _ fname cargs (Some d) (Some t) env funcs st func newEnv
             Hf Hlen Hbind).
  rewrite (evalFuncInEnv_fuel_mono _ _ _ _ _ _ _ _ Hfuel Hrun).
  split; [now intros ->|].
  split; [intros v -> Hty; now rewrite bool_decide_false|].
  split; [intros v -> Hty Hr; rewrite bool_decide_true by assumption;
          now rewrite bool_decide_false|].
  split.
  - intros Hr. destruct rv as [v|]; [|eauto].
    destruct (bool_decide (typeOf v = t)); [|eauto].
    rewrite bool_decide_false by assumption. eauto.
  - intros v -> Hty Hr. now rewrite !bool_decide_true.
Qed.

Lemma call_value_reconciled_witness :
  let funcs := [typed_callee; silent_callee] in
  let env : Env := {[ "a" := VInt 5 ]} in
  let printed := {| heap := Heap.empty; out := ["5"] |} in
  evalInstr (fun f e => evalFuncInEnv 10 f funcs e)
    (CallOperation "f" ["a"] (Some "r") (Some TInt)) env funcs initial
    = Done (NEXT, <["r" := VInt 5]> env) printed
  /\ evalInstr (fun f e => evalFuncInEnv 10 f funcs e)
    (CallOperation "g" [] (Some "r") (Some TInt)) env funcs initial
    = Raise (BriliError "non-void function (type: int) doesn't return anything") initial.
Proof.
  intros funcs env printed. split.
  - exact (proj2 (proj2 (proj2 (proj2
             (call_value_reconciled 3 "f" ["a"] "r" TInt env funcs initial typed_callee
                {[ "x" := VInt 5 ]} (Some (VInt 5)) printed
                eq_refl eq_refl eq_refl eq_refl 10 ltac:(lia)))))
             (VInt 5) eq_refl eq_refl eq_refl).
  - exact (proj1
             (call_value_reconciled 2 "g" [] "r" TInt env funcs initial silent_callee
                ∅ None initial eq_refl eq_refl eq_refl eq_refl 10 ltac:(lia))
             eq_refl).
Defined.

(** ** The driver and leaks *)

Lemma isEmpty_true (h : Heap.t Value) :
  Heap.isEmpty h = true <-> forall b, ~ live h b.
Proof.
  unfold Heap.isEmpty, live. rewrite bool_decide_eq_true. split.
  - intros -> b [x Hx]. now rewrite lookup_empty in Hx.
  - intros H. apply map_eq. intros b. rewrite lookup_empty.
    destruct (Heap.storage h !! b) eqn:Hb; [|reflexivity].
    exfalso. apply (H b). now exists l.
Qed.

Lemma isEmpty_false (h : Heap.t Value) :
  Heap.isEmpty h = false <-> exists b, live h b.
Proof.
  split.
  - intros Hf. unfold Heap.isEmpty in Hf. apply bool_decide_eq_false in Hf.
    destruct (map_choose _ Hf) as (b & x & Hx). exists b. now exists x.
  - intros [b Hb]. destruct (Heap.isEmpty h) eqn:He; [|reflexivity].
    exfalso. now apply (proj1 (isEmpty_true h) He b).
Qed.

(** C5. When the entry function has been found, its arguments bound, and
    its run returns normally in the state [st'] (with some fuel, hence with
    any larger amount): if some heap block is still live in [st'], the
    driver throws the leak message at that point, although no instruction
    failed; if none is live, the run completes. *)
Theorem leak_detected_at_end fuel prog argv mainf (env : Env) rv st' :
  findFunc "main" (functions prog) = inr mainf ->
  parseMainArguments (args mainf) argv = inr env ->
  evalFuncInEnv fuel mainf (functions prog) env initial = Done rv st' ->
  forall fuel', fuel <= fuel' ->
  ((exists b, live (heap st') b) ->
     evalProg fuel' prog argv
     = Raise (Thrown "Some memory locations have not been freed by end of execution.") st')
  /\ ((forall b, ~ live (heap st') b) -> evalProg fuel' prog argv = Done tt st').
Proof.
  intros Hf Hargs Hrun fuel' Hfuel. unfold evalProg, bind, lift.
  rewrite Hf, Hargs, (evalFuncInEnv_fuel_mono _ _ _ _ _ _ _ _ Hfuel Hrun). split.
  - intros Hlive. apply isEmpty_false in Hlive. now rewrite Hlive.
  - intros Hnone. apply isEmpty_true in Hnone. now rewrite Hnone.
Qed.

Lemma leak_detected_at_end_witness :
  let leaked := {| heap := Heap.mk {[ 0 := [None] ]} 1; out := [] |} in
  let freed := {| heap := Heap.mk ∅ 1; out := [] |} in
  evalProg 10 leaky_prog [] = Raise leak leaked
  /\ evalProg 10 tidy_prog [] = Done tt freed.
Proof.
  intros leaked freed. split.
  - refine (proj1 (leak_detected_at_end 3 leaky_prog [] _ ∅ None leaked
                     eq_refl eq_refl eq_refl 10 ltac:(lia)) _).
    exists 0, [None]. reflexivity.
  - refine (proj2 (leak_detected_at_end 4 tidy_prog [] _ ∅ None freed
                     eq_refl eq_refl eq_refl 10 ltac:(lia)) _).
    intros b [x Hx]. simpl in Hx. now rewrite lookup_empty in Hx.
Defined.

(** ** Labels and the end of a function body *)

Lemma searchLabel_le label lines : searchLabel label lines <= length lines.
Proof.
  induction lines as [|[i|l] lines IH]; simpl; [lia|lia|].
  case_bool_decide; lia.
Qed.

(** The scan stops at the first entry that carries the label. *)
Lemma searchLabel_first label lines j :
  lines !! j = Some (Label label) ->
  (forall k, k < j -> lines !! k <> Some (Label label)) ->
  searchLabel label lines = j.
Proof.
  revert j. induction lines as [|line lines IH]; intros j Hj Hfirst.
  - now rewrite lookup_nil in Hj.
  - destruct j as [|j].
    + simpl in Hj. injection Hj as ->. simpl. now rewrite bool_decide_true.
    + simpl in Hj.
      assert (Hrest : searchLabel label lines = j).
      { apply IH; [assumption|]. intros k Hk. apply (Hfirst (S k)). lia. }
      specialize (Hfirst 0 ltac:(lia)). simpl in Hfirst.
      destruct line as [i|l]; simpl; [now rewrite Hrest|].
      rewrite bool_decide_false by congruence. now rewrite Hrest.
Qed.

(** Without such an entry it runs to the end of the list. *)
Lemma searchLabel_absent label lines :
  (forall k, lines !! k <> Some (Label label)) ->
  searchLabel label lines = length lines.
Proof.
  induction lines as [|line lines IH]; intros Habs; [reflexivity|].
  assert (Hrest : searchLabel label lines = length lines).
  { apply IH. intros k. apply (Habs (S k)). }
  specialize (Habs 0). simpl in Habs.
  destruct line as [i|l]; simpl; [now rewrite Hrest|].
  rewrite bool_decide_false by congruence. now rewrite Hrest.
Qed.

(** C6. Let the instruction at index [i] of a function body yield the
    action of jumping to [label]. If the body has an entry tagged with
    [label], the scan from index 0 stops at the index [j] of the first such
    entry, and the run goes on from there, that is with the entry after
    [j]; if it has none, the function raises the label error. And at an
    index past the last entry the function returns no value. *)
Theorem jump_resolution fuel func funcs :
  (forall i (env env' : Env) st st' line label,
      instrs func !! i = Some (Instr line) ->
      evalInstr (fun f e => evalFuncInEnv fuel f funcs e) line env funcs st
      = Done (ActLabel label, env') st' ->
      (forall j,
          instrs func !! j = Some (Label label) ->
          (forall k, k < j -> instrs func !! k <> Some (Label label)) ->
          searchLabel label (instrs func) = j
          /\ evalLoop (S fuel) func funcs i env st
             = evalLoop fuel func funcs (S j) env' st'
          /\ evalLoop (S fuel) func funcs j env' st'
             = evalLoop fuel func funcs (S j) env' st')
      /\ ((forall k, instrs func !! k <> Some (Label label)) ->
          evalLoop (S fuel) func funcs i env st
          = Raise (BriliError ("label " ++ label ++ " not found")) st'))
  /\ (forall n (e : Env) s, length (instrs func) <= n ->
      evalLoop (S fuel) func funcs n e s = Done None s).
Proof.
  split.
  - intros i env env' st st' line label Hline Hact.
    assert (Hstep : evalLoop (S fuel) func funcs i env st
                    = if bool_decide (searchLabel label (instrs func)
                                      = length (instrs func))
                      then Raise (BriliError ("label " ++ label ++ " not found")) st'
                      else evalLoop fuel func funcs
                             (S (searchLabel label (instrs func))) env' st').
    { simpl. rewrite Hline. unfold bind. unfold evalFuncInEnv in Hact. rewrite Hact.
      now case_bool_decide. }
    split.
    + intros j Hj Hfirst.
      pose proof (searchLabel_first _ _ _ Hj Hfirst) as Hs.
      split; [assumption|]. split.
      * rewrite Hstep, Hs. apply lookup_lt_Some in Hj.
        rewrite bool_decide_false by lia. reflexivity.
      * simpl. now rewrite Hj.
    + intros Habs. rewrite Hstep, (searchLabel_absent _ _ Habs).
      now rewrite bool_decide_true.
  - intros n e s Hn. simpl. now rewrite (lookup_ge_None_2 _ _ Hn).
Qed.

Lemma jump_resolution_witness :
  searchLabel "l" (instrs jumper) = 2
  /\ evalLoop 10 jumper [jumper] 0 ∅ initial = evalLoop 9 jumper [jumper] 3 ∅ initial
  /\ evalLoop 10 jumper [jumper] 5 ∅ initial = Done None initial.
Proof.
  destruct (jump_resolution 9 jumper [jumper]) as (Hjump & Hend).
  destruct (Hjump 0 ∅ ∅ initial initial (EffectOperation OpJmp ["l"]) "l"
              eq_refl eq_refl) as (Hfound & _).
  destruct (Hfound 2 eq_refl) as (Hs & Hgo & _).
  - intros k Hk. destruct k as [|[|k]]; simpl; [discriminate|discriminate|lia].
  - split; [exact Hs|]. split; [exact Hgo|]. apply Hend. simpl. lia.
Defined.

(** ** [store] *)

Lemma slot_inv {X} (key : Key) (h : Heap.t X) data i :
  Heap.slot key h = Some (data, i) ->
  Heap.storage h !! base key = Some data /\ i < length data
  /\ offset key = Num (Z.of_nat i).
Proof.
  unfold Heap.slot. destruct (Heap.storage h !! base key) as [d|]; [|discriminate].
  destruct (offset key) as [z| | |]; try discriminate.
  case_bool_decide as Hz; [|discriminate]. intros [= <- <-].
  split; [reflexivity|]. split; [lia|]. f_equal. lia.
Qed.

(** The heap writes whatever value it is handed, and reads it back. *)
Lemma write_read {X} (key : Key) (val : X) (h : Heap.t X) data i :
  Heap.slot key h = Some (data, i) ->
  exists h', Heap.write key val h = inr h' /\ Heap.read key h' = inr val.
Proof.
  intros Hslot. destruct (slot_inv _ _ _ _ Hslot) as (Hdata & Hi & Hoff).
  unfold Heap.write. rewrite Hslot. eexists. split; [reflexivity|].
  unfold Heap.read, Heap.slot. simpl. rewrite lookup_insert_eq, Hoff.
  rewrite length_insert. rewrite bool_decide_true by lia.
  rewrite Nat2Z.id. now rewrite list_lookup_insert_eq.
Qed.

Lemma write_dead {X} (key : Key) (val : X) (h : Heap.t X) :
  Heap.slot key h = None -> Heap.write key val h = inl (HeapError InvalidAccess).
Proof. intros Hslot. unfold Heap.write. now rewrite Hslot. Qed.

(** C7. For a [store] whose first operand is bound to the pointer [p] and
    whose second operand is bound to the value [v]: when the runtime type
    of [v] is not the element type of [p], the instruction raises a type
    error on argument 1 and the state, the heap in it, is as before; when
    the types agree the outcome is that of the heap's [write] of [v] at
    [p], which succeeds on a live slot, after which the slot reads [v].
    The heap itself accepts any value at a live slot. *)
Theorem store_type_checked (callee : Function -> Env -> M ReturnValue)
    x y (env : Env) funcs st p v :
  env !! x = Some (VPtr p) ->
  env !! y = Some v ->
  (typeOf v <> type p ->
     exists e,
       evalInstr callee (EffectOperation OpStore [x; y]) env funcs st = Raise e st
       /\ (e = BriliError "store argument 1 must be a {brilTyp}"
           \/ e = Thrown "store argument 1 must be a Pointer"))
  /\ (typeOf v = type p ->
      evalInstr callee (EffectOperation OpStore [x; y]) env funcs st
      = match Heap.write (loc p) v (heap st) with
        | inl e => Raise e st
        | inr h' => Done (NEXT, env) {| heap := h'; out := out st |}
        end)
  /\ (forall data i, Heap.slot (loc p) (heap st) = Some (data, i) ->
      (forall w : Value, exists h', Heap.write (loc p) w (heap st) = inr h')
      /\ (typeOf v = type p ->
          exists h',
            evalInstr callee (EffectOperation OpStore [x; y]) env funcs st
            = Done (NEXT, env) {| heap := h'; out := out st |}
            /\ Heap.read (loc p) h' = inr v)).
Proof.
  intros Hx Hy.
  assert (Hmatch : typeOf v = type p ->
            evalInstr callee (EffectOperation OpStore [x; y]) env funcs st
            = match Heap.write (loc p) v (heap st) with
              | inl e => Raise e st
              | inr h' => Done (NEXT, env) {| heap := h'; out := out st |}
              end).
  { intros Hty. unfold evalInstr, bind, lift. simpl. unfold evalEffectOp, bind, lift.
    rewrite (getPtr_ok _ env [x; y] 0 x p eq_refl Hx).
    destruct v as [b|q|n]; simpl in Hty; rewrite <- Hty.
    - rewrite (getBool_ok _ env [x; y] 1 y b eq_refl Hy).
      unfold onHeap_, onHeap, E_bind. now destruct (Heap.write _ _ _).
    - rewrite (getPtr_ok _ env [x; y] 1 y q eq_refl Hy).
      unfold onHeap_, onHeap, E_bind. now destruct (Heap.write _ _ _).
    - rewrite (getInt_ok _ env [x; y] 1 y n eq_refl Hy).
      unfold onHeap_, onHeap, E_bind. now destruct (Heap.write _ _ _). }
  split; [|split].
  - intros Hty. unfold evalInstr, bind, lift. simpl. unfold evalEffectOp, bind, lift.
    rewrite (getPtr_ok _ env [x; y] 0 x p eq_refl Hx).
    destruct (type p) eqn:Hp.
    + rewrite (getInt_mismatch _ env [x; y] 1 y v eq_refl Hy Hty). eauto.
    + rewrite (getBool_mismatch _ env [x; y] 1 y v eq_refl Hy Hty). eauto.
    + rewrite (getPtr_mismatch _ env [x; y] 1 y v eq_refl Hy Hty). eauto.
  - exact Hmatch.
  - intros data i Hslot. split.
    + intros w. destruct (write_read (loc p) w (heap st) data i Hslot) as (h' & Hw & _).
      eauto.
    + intros Hty. destruct (write_read (loc p) v (heap st) data i Hslot) as (h' & Hw & Hr).
      exists h'. rewrite (Hmatch Hty), Hw. auto.
Qed.

Lemma store_type_checked_witness :
  let idle : Function -> Env -> M ReturnValue := fun _ _ => ret None in
  let p := {| loc := {| base := 0; offset := Num 0 |}; type := TInt |} in
  let env : Env := <[ "b" := VBool true ]> (<[ "v" := VInt 7 ]> {[ "p" := VPtr p ]}) in
  let st := {| heap := Heap.mk {[ 0 := [None] ]} 1; out := [] |} in
  let st' := {| heap := Heap.mk {[ 0 := [Some (VInt 7)] ]} 1; out := [] |} in
  (exists e, evalInstr idle (EffectOperation OpStore ["p"; "b"]) env [] st = Raise e st
             /\ (e = BriliError "store argument 1 must be a {brilTyp}"
                 \/ e = Thrown "store argument 1 must be a Pointer"))
  /\ evalInstr idle (EffectOperation OpStore ["p"; "v"]) env [] st = Done (NEXT, env) st'.
Proof.
  intros idle p env st st'. split.
  - refine (proj1 (store_type_checked idle "p" "b" env [] st p (VBool true)
                     eq_refl eq_refl) _).
    simpl. discriminate.
  - exact (proj1 (proj2 (store_type_checked idle "p" "v" env [] st p (VInt 7)
                           eq_refl eq_refl)) eq_refl).
Defined.

(** ** [alloc] *)

(** [Number] is exact on the integers a double holds without rounding. *)
Lemma Number_exact (b : Z) : (- 2 ^ 53 < b < 2 ^ 53)%Z -> Number b = Num b.
Proof.
  intros Hb. unfold Number, roundDouble.
  destruct (Z.ltb_spec b 0).
  - destruct (Z.ltb_spec (- b) (2 ^ 53)); [|lia]. f_equal. lia.
  - destruct (Z.ltb_spec b (2 ^ 53)); [reflexivity|lia].
Qed.

Lemma heap_wf_empty : heap_wf Heap.empty.
Proof. intros b [x Hx]. simpl in Hx. now rewrite lookup_empty in Hx. Qed.

Lemma heap_wf_unused h : heap_wf h -> Heap.storage h !! Heap.count h = None.
Proof.
  intros Hwf. destruct (Heap.storage h !! Heap.count h) eqn:Hc; [|reflexivity].
  assert (Hl : live h (Heap.count h)) by (now exists l). apply Hwf in Hl. lia.
Qed.

Lemma heap_wf_alloc amt h key h' :
  heap_wf h -> Heap.alloc amt h = inr (key, h') -> heap_wf h'.
Proof.
  intros Hwf. unfold Heap.alloc. destruct amt as [n| | |]; try discriminate.
  destruct (n <=? 0)%Z; [discriminate|]. intros [= <- <-] b [x Hx]. simpl in *.
  destruct (decide (Heap.count h = b)) as [<-|Hne]; [lia|].
  rewrite lookup_insert_ne in Hx by assumption.
  assert (Hl : live h b) by (now exists x). apply Hwf in Hl. lia.
Qed.

Lemma heap_wf_free key h h' :
  heap_wf h -> Heap.free key h = inr h' -> heap_wf h'.
Proof.
  intros Hwf. unfold Heap.free.
  destruct (Heap.storage h !! base key); [|discriminate].
  destruct (offset key) as [[| |]| | |]; try discriminate.
  intros [= <-] b [x Hx]. simpl in *.
  apply lookup_delete_Some in Hx as [_ Hx]. apply Hwf. now exists x.
Qed.

Lemma heap_wf_write key (val : Value) h h' :
  heap_wf h -> Heap.write key val h = inr h' -> heap_wf h'.
Proof.
  intros Hwf. unfold Heap.write. destruct (Heap.slot key h) as [[data i]|] eqn:Hs;
    [|discriminate].
  intros [= <-] b [x Hx]. simpl in *.
  destruct (decide (base key = b)) as [<-|Hne].
  - apply Hwf. exists data. now apply slot_inv in Hs.
  - rewrite lookup_insert_ne in Hx by assumption. apply Hwf. now exists x.
Qed.

(** C9. For an [alloc] declared with the pointer type [{ptr: pt}] whose
    operand is bound to an integer, let [n] be the count handed to the
    allocation, the host number of that integer (the integer itself below
    2^53 in magnitude, see [Number_exact]). When [n <= 0] the instruction
    throws the message of the allocation and the state is as before. When
    [0 < n] the heap gains one block of [n] uninitialized slots, under an
    identifier that is not live before in a well-formed heap, and the
    destination is bound to a pointer to that block at offset 0 whose
    element type is [pt] when [pt] is int or bool, and ptr otherwise. *)
Theorem alloc_instr (callee : Function -> Env -> M ReturnValue)
    x dest pt (env : Env) funcs st (b n : Z) :
  env !! x = Some (VInt b) ->
  Number b = Num n ->
  let run := evalInstr callee (ValueOperation OpAlloc [x] dest (PtrTo pt)) env funcs st in
  ((n <= 0)%Z -> exists msg, run = Raise (Thrown msg) st)
  /\ ((0 < n)%Z ->
      exists ety,
        let id := Heap.count (heap st) in
        run = Done (NEXT,
                    <[dest := VPtr {| loc := {| base := id; offset := Num 0 |};
                                      type := ety |}]> env)
                {| heap := Heap.mk (<[id := replicate (Z.to_nat n) None]>
                                      (Heap.storage (heap st))) (S id);
                   out := out st |}
        /\ (heap_wf (heap st) -> ~ live (heap st) id)
        /\ (pt = Prim TInt -> ety = TInt)
        /\ (pt = Prim TBool -> ety = TBool)
        /\ (pt <> Prim TInt -> pt <> Prim TBool -> ety = TPtr)).
Proof.
  intros Hx Hn run. subst run.
  unfold evalInstr, bind, lift. simpl. unfold evalValueOp, bind, lift.
  rewrite (getInt_ok _ env [x] 0 x b eq_refl Hx). rewrite Hn.
  unfold alloc, bind, throw, ret, onHeap. simpl. split.
  - intros Hle. destruct (Z.leb_spec n 0); [|lia]. eauto.
  - intros Hpos. destruct (Z.leb_spec n 0); [lia|].
    eexists. split; [reflexivity|]. split.
    + intros Hwf [blk Hblk]. rewrite (heap_wf_unused _ Hwf) in Hblk. discriminate.
    + split; [now intros ->|]. split; [now intros ->|].
      intros Hi Hb. destruct pt as [[]|]; congruence.
Qed.

Lemma alloc_instr_witness :
  let idle : Function -> Env -> M ReturnValue := fun _ _ => ret None in
  let env : Env := <[ "z" := VInt 0 ]> {[ "n" := VInt 3 ]} in
  (exists msg,
      evalInstr idle (ValueOperation OpAlloc ["z"] "p" (PtrTo (Prim TBool))) env [] initial
      = Raise (Thrown msg) initial)
  /\ exists ety,
      evalInstr idle (ValueOperation OpAlloc ["n"] "p" (PtrTo (PtrTo (Prim TInt))))
        env [] initial
      = Done (NEXT,
              <["p" := VPtr {| loc := {| base := 0; offset := Num 0 |}; type := ety |}]> env)
          {| heap := Heap.mk {[ 0 := [None; None; None] ]} 1; out := [] |}
      /\ ety = TPtr.
Proof.
  intros idle env. split.
  - exact (proj1 (alloc_instr idle "z" "p" (Prim TBool) env [] initial 0 0
                    eq_refl eq_refl) ltac:(lia)).
  - destruct (proj2 (alloc_instr idle "n" "p" (PtrTo (Prim TInt)) env [] initial 3 3
                       eq_refl eq_refl) ltac:(lia))
      as (ety & Hrun & _ & _ & _ & Hptr).
    exists ety. split; [exact Hrun|]. apply Hptr; discriminate.
Defined.

(** ** Function lookup and the entry point *)

Lemma findFunc_absent func (funcs : list Function) :
  (forall f, f ∈ funcs -> name f <> func) ->
  findFunc func funcs = inl (BriliError ("no function of name " ++ func ++ " found")).
Proof.
  intros Habs. unfold findFunc.
  destruct (filter (fun f => name f = func) funcs) as [|f rest] eqn:Hm; [reflexivity|].
  assert (Hin : f ∈ filter (fun f => name f = func) funcs) by (rewrite Hm; left).
  apply list_elem_of_filter in Hin as [Hname Hin]. now apply Habs in Hin.
Qed.

Lemma findFunc_ambiguous func (funcs : list Function) :
  1 < length (filter (fun f => name f = func) funcs) ->
  findFunc func funcs
  = inl (BriliError ("multiple functions of name " ++ func ++ " found")).
Proof.
  intros Hlen. unfold findFunc.
  destruct (filter (fun f => name f = func) funcs) as [|f [|g rest]]; simpl in Hlen;
    [lia|lia|reflexivity].
Qed.

(** [findFunc] answers a function of the table with the name asked for, or
    throws: it has no other answer. *)
Lemma findFunc_total func (funcs : list Function) :
  (exists f, findFunc func funcs = inr f /\ f ∈ funcs /\ name f = func)
  \/ (exists msg, findFunc func funcs = inl (BriliError msg)).
Proof.
  unfold findFunc.
  destruct (filter (fun f => name f = func) funcs) as [|f [|g rest]] eqn:Hm; eauto.
  left. exists f. split; [reflexivity|].
  assert (Hin : f ∈ filter (fun f => name f = func) funcs) by (rewrite Hm; left).
  apply list_elem_of_filter in Hin as [Hname Hin]. auto.
Qed.

(** C10. For a program without a function named main the driver raises the
    lookup error with nothing run: no fuel is used, the heap is empty and
    nothing, the warning included, has been printed; [main] reports it.
    With more than one function named main it raises the lookup error for
    several functions, in the same state. The branch for a missing entry
    point is dead: whatever the table, [findFunc] answers a function of the
    table with the name asked for, or throws. *)
Theorem missing_main_raises :
  (forall fuel prog argv,
      (forall f, f ∈ functions prog -> name f <> "main") ->
      evalProg fuel prog argv
      = Raise (BriliError "no function of name main found") initial
      /\ main fuel prog argv
         = Reported [] "Brili interpreter error: no function of name main found")
  /\ (forall fuel prog argv,
      1 < length (filter (fun f => name f = "main") (functions prog)) ->
      evalProg fuel prog argv
      = Raise (BriliError "multiple functions of name main found") initial)
  /\ (forall func funcs,
      (exists f, findFunc func funcs = inr f /\ f ∈ funcs /\ name f = func)
      \/ (exists msg, findFunc func funcs = inl (BriliError msg))).
Proof.
  split; [|split].
  - intros fuel prog argv Habs.
    assert (Hrun : evalProg fuel prog argv
                   = Raise (BriliError "no function of name main found") initial).
    { unfold evalProg, bind, lift. now rewrite (findFunc_absent _ _ Habs). }
    split; [assumption|]. unfold main. now rewrite Hrun.
  - intros fuel prog argv Hmany. unfold evalProg, bind, lift.
    now rewrite (findFunc_ambiguous _ _ Hmany).
  - apply findFunc_total.
Qed.

Lemma missing_main_raises_witness :
  evalProg 0 {| functions := [typed_callee] |} ["1"]
    = Raise (BriliError "no function of name main found") initial
  /\ evalProg 0 {| functions := [jumper; jumper] |} []
    = Raise (BriliError "multiple functions of name main found") initial.
Proof.
  split.
  - refine (proj1 (proj1 missing_main_raises 0 {| functions := [typed_callee] |} ["1"] _)).
    intros f Hf. apply list_elem_of_singleton in Hf as ->. simpl. discriminate.
  - refine (proj1 (proj2 missing_main_raises) 0 {| functions := [jumper; jumper] |} [] _).
    simpl. lia.
Defined.

(** ** The arguments of the entry function *)

Lemma eqb_code (c d : ascii) :
  nat_of_ascii c <> nat_of_ascii d -> Ascii.eqb c d = false.
Proof.
  intros Hne. destruct (Ascii.eqb_spec c d) as [->|]; [contradiction|reflexivity].
Qed.

Lemma digit_not_space c : isDecimalDigit c -> isWhiteSpace c = false.
Proof.
  unfold isDecimalDigit, isWhiteSpace. intros Hc. cbv zeta.
  apply bool_decide_eq_false. intros Hn. lia.
Qed.

Lemma digit_value c :
  isDecimalDigit c -> digitValue c = Some (Z.of_nat (nat_of_ascii c) - 48)%Z.
Proof.
  unfold isDecimalDigit, digitValue. cbv zeta.
  generalize (nat_of_ascii c). intros n Hc.
  now rewrite bool_decide_true by lia.
Qed.

Lemma all_digits_trimStart s : all_digits s -> trimStart s = s.
Proof. destruct s as [|c r]; [reflexivity|]. intros [Hc _]. simpl. now rewrite digit_not_space. Qed.

Lemma digit_eqb c d :
  isDecimalDigit c ->
  Nat.ltb (nat_of_ascii d) 48 || Nat.ltb 57 (nat_of_ascii d) = true ->
  Ascii.eqb c d = false.
Proof.
  unfold isDecimalDigit. intros Hc Hd. apply eqb_code.
  revert Hc Hd. generalize (nat_of_ascii c) (nat_of_ascii d). intros n m Hc Hd.
  apply orb_true_iff in Hd as [Hd|Hd];
    [apply Nat.ltb_lt in Hd|apply Nat.ltb_lt in Hd]; lia.
Qed.

Lemma all_digits_signOf s : all_digits s -> signOf s = (false, s).
Proof.
  destruct s as [|c r]; [reflexivity|]. intros [Hc _]. simpl.
  now rewrite (digit_eqb c "-" Hc eq_refl), (digit_eqb c "+" Hc eq_refl).
Qed.

Lemma all_digits_hasHexPrefix s : all_digits s -> hasHexPrefix s = false.
Proof.
  destruct s as [|c1 [|c2 r]]; [reflexivity|reflexivity|].
  intros (_ & Hc & _). simpl.
  rewrite (digit_eqb c2 "x" Hc eq_refl), (digit_eqb c2 "X" Hc eq_refl).
  now rewrite andb_false_r.
Qed.

Lemma pretty_N_char_code (x : N) :
  (x < 10)%N -> nat_of_ascii (pretty_N_char x) = 48 + N.to_nat x.
Proof.
  intros Hx.
  assert (x = 0 \/ x = 1 \/ x = 2 \/ x = 3 \/ x = 4 \/ x = 5 \/ x = 6 \/ x = 7
          \/ x = 8 \/ x = 9)%N as Hcases by lia.
  repeat destruct Hcases as [->|Hcases]; try reflexivity. now subst.
Qed.

Lemma pretty_N_go_all_digits (x : N) :
  forall s, all_digits s -> all_digits (pretty_N_go x s).
Proof.
  induction (N.lt_wf_0 x) as [x _ IH]. intros s Hs.
  destruct (decide (x = 0%N)) as [->|Hx]; [now rewrite pretty_N_go_0|].
  rewrite pretty_N_go_step by lia. apply IH.
  - apply N.div_lt; lia.
  - split; [|assumption]. unfold isDecimalDigit.
    rewrite pretty_N_char_code by (apply N.mod_lt; lia).
    pose proof (N.mod_lt x 10 ltac:(lia)) as Hm. revert Hm.
    generalize (x `mod` 10)%N. intros m Hm. lia.
Qed.

(** Reading the decimal digits of [x] in front of [s] shifts what was read
    before them and adds [x]. *)
Lemma readDigits_pretty (x : N) :
  (0 < x)%N ->
  forall s acc, exists k,
    readDigits 10 (pretty_N_go x s) acc
    = readDigits 10 s (Some (default 0%Z acc * 10 ^ Z.of_nat k + Z.of_N x)%Z).
Proof.
  induction (N.lt_wf_0 x) as [x _ IH]. intros Hx s acc.
  rewrite pretty_N_go_step by assumption.
  pose proof (N.mod_lt x 10 ltac:(discriminate)) as Hmod.
  pose proof (N.div_mod x 10 ltac:(discriminate)) as Hdm.
  assert (Hlt : (x `div` 10 < x)%N) by (apply N.div_lt; [assumption|reflexivity]).
  specialize (IH (x `div` 10)%N Hlt).
  set (q := (x `div` 10)%N) in *. set (m := (x `mod` 10)%N) in *. clearbody q m.
  assert (Hd : isDecimalDigit (pretty_N_char m)).
  { unfold isDecimalDigit. rewrite pretty_N_char_code by assumption. lia. }
  assert (Hv : digitValue (pretty_N_char m) = Some (Z.of_N m)).
  { rewrite (digit_value _ Hd), pretty_N_char_code by assumption. f_equal. lia. }
  destruct (decide (q = 0)%N) as [Hz|Hnz].
  - rewrite Hz, pretty_N_go_0. exists 1. simpl readDigits. rewrite Hv.
    destruct (Z.ltb_spec (Z.of_N m) 10); [|lia].
    f_equal. f_equal. change (10 ^ Z.of_nat 1)%Z with 10%Z. lia.
  - destruct (IH ltac:(lia) (String (pretty_N_char m) s) acc) as [k Hk].
    exists (S k). rewrite Hk. simpl readDigits. rewrite Hv.
    destruct (Z.ltb_spec (Z.of_N m) 10); [|lia].
    f_equal. f_equal. simpl default.
    rewrite Nat2Z.inj_succ, Z.pow_succ_r by lia. lia.
Qed.

(** A string of decimal digits, with or without a minus sign in front, is
    read in base 10 in full. *)
Lemma parseInt_digits (neg : bool) (s : string) (x : Z) :
  all_digits s ->
  readDigits 10 s None = Some x ->
  parseInt (if neg then String "-" s else s)
  = match roundDouble x with
    | Some m => Num (if neg then - m else m)
    | None => if neg then NegInf else PosInf
    end.
Proof.
  intros Hd Hread. unfold parseInt, parseIntRadix.
  assert (Hsign : signOf (trimStart (if neg then String "-" s else s)) = (neg, s)).
  { destruct neg.
    - reflexivity.
    - now rewrite (all_digits_trimStart _ Hd), (all_digits_signOf _ Hd). }
  rewrite Hsign. cbv beta iota zeta.
  rewrite (all_digits_hasHexPrefix _ Hd), andb_false_r. cbv beta iota zeta.
  simpl default. now rewrite Hread.
Qed.

(** The host reads back the decimal numeral of an integer that a double
    holds exactly. *)
Lemma parseInt_pretty (z : Z) :
  (- 2 ^ 53 < z < 2 ^ 53)%Z -> parseInt (pretty z) = Num z.
Proof.
  intros Hz. destruct z as [|p|p].
  - reflexivity.
  - change (pretty (Z.pos p)) with (pretty_N_go (N.pos p) EmptyString).
    pose proof (pretty_N_go_all_digits (N.pos p) EmptyString I) as Hd.
    destruct (readDigits_pretty (N.pos p) ltac:(lia) EmptyString None) as [k Hk].
    simpl default in Hk. rewrite Z.mul_0_l, Z.add_0_l in Hk.
    change (Z.of_N (N.pos p)) with (Z.pos p) in Hk.
    rewrite (parseInt_digits false _ _ Hd Hk).
    unfold roundDouble. destruct (Z.ltb_spec (Z.pos p) (2 ^ 53)); [reflexivity|lia].
  - change (pretty (Z.neg p)) with (String "-" (pretty_N_go (N.pos p) EmptyString)).
    pose proof (pretty_N_go_all_digits (N.pos p) EmptyString I) as Hd.
    destruct (readDigits_pretty (N.pos p) ltac:(lia) EmptyString None) as [k Hk].
    simpl default in Hk. rewrite Z.mul_0_l, Z.add_0_l in Hk.
    change (Z.of_N (N.pos p)) with (Z.pos p) in Hk.
    rewrite (parseInt_digits true _ _ Hd Hk).
    unfold roundDouble. destruct (Z.ltb_spec (Z.pos p) (2 ^ 53)); [reflexivity|lia].
Qed.

(** Without the prefix [0x] or [0X] after white space and sign, the host
    reads base 10. *)
Lemma parseInt_base10 (s : string) :
  hasHexPrefix (snd (signOf (trimStart s))) = false ->
  parseInt s = parseIntRadix (Some 10%Z) s.
Proof.
  intros Hp. unfold parseInt, parseIntRadix.
  destruct (signOf (trimStart s)) as [neg S1]. simpl in Hp.
  now rewrite Hp, andb_false_r.
Qed.

(** With the prefix, it reads base 16 after it. *)
Lemma parseInt_base16 (s : string) :
  hasHexPrefix (snd (signOf (trimStart s))) = true ->
  parseInt s
  = match readDigits 16 (dropTwo (snd (signOf (trimStart s)))) None with
    | None => NaN
    | Some mathInt =>
        match roundDouble mathInt with
        | Some m => Num (if fst (signOf (trimStart s)) then - m else m)
        | None => if fst (signOf (trimStart s)) then NegInf else PosInf
        end
    end.
Proof.
  intros Hp. unfold parseInt, parseIntRadix.
  destruct (signOf (trimStart s)) as [neg S1]. simpl in *.
  rewrite Hp. reflexivity.
Qed.

Lemma parseBool_accepts (s : string) (b : bool) :
  parseBool s = inr b <-> (s = "true" /\ b = true) \/ (s = "false" /\ b = false).
Proof.
  unfold parseBool. case_bool_decide as Ht.
  - subst. split.
    + intros [= <-]. left. auto.
    + intros [[_ ->]|[Hs _]]; [reflexivity|discriminate].
  - case_bool_decide as Hf.
    + subst. split.
      * intros [= <-]. right. auto.
      * intros [[Hs _]|[_ ->]]; [discriminate|reflexivity].
    + split; [discriminate|]. intros [[Hs _]|[Hs _]]; contradiction.
Qed.

Lemma parseBool_rejects (s : string) :
  s <> "true" -> s <> "false" ->
  parseBool s
  = inl (BriliError ("boolean argument to main must be 'true'/'false'; got " ++ s)).
Proof. intros Ht Hf. unfold parseBool. now rewrite !bool_decide_false. Qed.

Lemma BigInt_inr (n : number) (z : Z) : BigInt n = inr z <-> n = Num z.
Proof. destruct n; simpl; split; intros H; congruence. Qed.

(** A parameter name that no remaining parameter carries keeps its binding. *)
Lemma bindMain_other expected :
  forall argv (newEnv env : Env) x,
    bindMain expected argv newEnv = inr env ->
    (forall q, q ∈ expected -> aname q <> x) ->
    env !! x = newEnv !! x.
Proof.
  induction expected as [|p expected IH]; intros argv newEnv env x Hb Hne.
  - simpl in Hb. now injection Hb as <-.
  - destruct argv as [|s argv]; [simpl in Hb; now injection Hb as <-|].
    assert (Hp : aname p <> x) by (apply Hne; left).
    assert (Hrest : forall q, q ∈ expected -> aname q <> x)
      by (intros q Hq; apply Hne; now right).
    simpl in Hb. destruct (atype p).
    + destruct (BigInt (parseInt s)) as [e|n]; [discriminate|]. simpl in Hb.
      rewrite (IH _ _ _ _ Hb Hrest). now apply lookup_insert_ne.
    + destruct (parseBool s) as [e|b]; [discriminate|]. simpl in Hb.
      rewrite (IH _ _ _ _ Hb Hrest). now apply lookup_insert_ne.
    + now apply (IH _ _ _ _ Hb Hrest).
Qed.

Lemma bindMain_position expected :
  forall argv (newEnv env : Env) i p s,
    bindMain expected argv newEnv = inr env ->
    expected !! i = Some p ->
    argv !! i = Some s ->
    last_of_its_name expected i p ->
    (atype p = TInt ->
       exists z, parseInt s = Num z /\ env !! aname p = Some (VInt z))
    /\ (atype p = TBool ->
       exists b, parseBool s = inr b /\ env !! aname p = Some (VBool b)).
Proof.
  induction expected as [|p0 expected IH]; intros argv newEnv env i p s Hb Hp Hs Hlast.
  - now rewrite lookup_nil in Hp.
  - destruct argv as [|s0 argv]; [now rewrite lookup_nil in Hs|].
    destruct i as [|i].
    + simpl in Hp, Hs. injection Hp as ->. injection Hs as ->.
      assert (Hrest : forall q, q ∈ expected -> aname q <> aname p).
      { intros q Hq. apply list_elem_of_lookup in Hq as [j Hj].
        apply (Hlast (S j) q); [lia|assumption]. }
      simpl in Hb. split; intros Hty; rewrite Hty in Hb.
      * destruct (BigInt (parseInt s)) as [e|n] eqn:Hn; [discriminate|]. simpl in Hb.
        exists n. split; [now apply BigInt_inr|].
        rewrite (bindMain_other _ _ _ _ _ Hb Hrest). apply lookup_insert_eq.
      * destruct (parseBool s) as [e|b] eqn:Hpb; [discriminate|]. simpl in Hb.
        exists b. split; [reflexivity|].
        rewrite (bindMain_other _ _ _ _ _ Hb Hrest). apply lookup_insert_eq.
    + simpl in Hp, Hs.
      assert (Hlast' : last_of_its_name expected i p).
      { intros j q Hj Hq. apply (Hlast (S j) q); [lia|assumption]. }
      simpl in Hb. destruct (atype p0).
      * destruct (BigInt (parseInt s0)) as [e|n]; [discriminate|]. simpl in Hb.
        exact (IH _ _ _ _ _ _ Hb Hp Hs Hlast').
      * destruct (parseBool s0) as [e|b]; [discriminate|]. simpl in Hb.
        exact (IH _ _ _ _ _ _ Hb Hp Hs Hlast').
      * exact (IH _ _ _ _ _ _ Hb Hp Hs Hlast').
Qed.

(** A boolean parameter with a string other than the two literals makes the
    binding fail, with a [BriliError] unless an integer parameter stands
    before it. *)
Lemma bindMain_bad_bool expected :
  forall argv (newEnv : Env) i p s,
    expected !! i = Some p ->
    argv !! i = Some s ->
    atype p = TBool -> s <> "true" -> s <> "false" ->
    exists e,
      bindMain expected argv newEnv = inl e
      /\ ((forall j q, j < i -> expected !! j = Some q -> atype q <> TInt) ->
          exists msg, e = BriliError msg).
Proof.
  induction expected as [|p0 expected IH]; intros argv newEnv i p s Hp Hs Hty Ht Hf.
  - now rewrite lookup_nil in Hp.
  - destruct argv as [|s0 argv]; [now rewrite lookup_nil in Hs|].
    destruct i as [|i].
    + simpl in Hp, Hs. injection Hp as ->. injection Hs as ->.
      simpl. rewrite Hty, (parseBool_rejects _ Ht Hf). simpl. eauto.
    + simpl in Hp, Hs. simpl.
      destruct (atype p0) eqn:Hp0.
      * destruct (BigInt (parseInt s0)) as [e|n]; simpl.
        -- exists e. split; [reflexivity|]. intros Hno.
           exfalso. apply (Hno 0 p0); [lia|reflexivity|assumption].
        -- destruct (IH argv (<[aname p0 := VInt n]> newEnv) i p s Hp Hs Hty Ht Hf)
             as (e & He & Hmsg).
           exists e. split; [assumption|]. intros Hno. apply Hmsg.
           intros j q Hj Hq. apply (Hno (S j) q); [lia|assumption].
      * destruct (parseBool s0) as [e|b] eqn:Hpb; simpl.
        -- exists e. split; [reflexivity|]. intros _.
           unfold parseBool in Hpb. repeat case_bool_decide; try discriminate.
           injection Hpb as <-. eauto.
        -- destruct (IH argv (<[aname p0 := VBool b]> newEnv) i p s Hp Hs Hty Ht Hf)
             as (e & He & Hmsg).
           exists e. split; [assumption|]. intros Hno. apply Hmsg.
           intros j q Hj Hq. apply (Hno (S j) q); [lia|assumption].
      * destruct (IH argv newEnv i p s Hp Hs Hty Ht Hf) as (e & He & Hmsg).
        exists e. split; [assumption|]. intros Hno. apply Hmsg.
        intros j q Hj Hq. apply (Hno (S j) q); [lia|assumption].
Qed.

(** C8, as stated, fails on the integer coercion: the string of an integer
    parameter is not always read in base 10. After the prefix [0x] the
    host's [parseInt], called without a radix, reads base 16: the argument
    "0x10" binds 16, where the base-10 reading [parseInt(s, 10)] stops at
    the [x] and yields 0. *)
Lemma hex_argument_not_base10 :
  parseMainArguments [ {| aname := "n"; atype := TInt |} ] ["0x10"]
    = inr {[ "n" := VInt 16 ]}
  /\ BigInt (parseIntRadix (Some 10%Z) "0x10") = inr 0%Z
  /\ parseInt "0x10" <> parseIntRadix (Some 10%Z) "0x10".
Proof.
  split; [reflexivity|]. split; [reflexivity|]. vm_compute. discriminate.
Qed.

(** C8, amended. An arity mismatch between the string list and the declared
    parameters fails with the arity error, and the driver stops there
    whatever the fuel: no instruction runs. When the binding succeeds, an
    integer parameter (the last of its name) is bound to the integer that
    the host's [parseInt] reads from its string, and a boolean one to true
    or false, its string being exactly "true" or "false". [parseInt] reads
    base 10 (as [parseInt(s, 10)]: white space, sign, longest prefix of
    decimal digits) unless the digits start with [0x] or [0X], and it
    reads the decimal numeral of an integer below 2^53 in magnitude as that
    integer; after the prefix it reads base 16. On any other string the
    boolean coercion throws its [BriliError], and the binding as a whole
    fails (with a [BriliError] when no integer parameter precedes the
    boolean one). *)
Theorem main_arguments_bound :
  (forall expected argv,
      length argv <> length expected ->
      parseMainArguments expected argv
      = inl (BriliError ("mismatched main argument arity: expected "
                         ++ pretty (length expected) ++ "; got " ++ pretty (length argv)))
      /\ forall fuel prog mainf,
          findFunc "main" (functions prog) = inr mainf ->
          args mainf = expected ->
          evalProg fuel prog argv
          = Raise (BriliError ("mismatched main argument arity: expected "
                               ++ pretty (length expected) ++ "; got "
                               ++ pretty (length argv))) initial)
  /\ (forall expected argv (env : Env) i p s,
      parseMainArguments expected argv = inr env ->
      expected !! i = Some p ->
      argv !! i = Some s ->
      last_of_its_name expected i p ->
      (atype p = TInt ->
         exists z, parseInt s = Num z /\ env !! aname p = Some (VInt z))
      /\ (atype p = TBool ->
         (s = "true" /\ env !! aname p = Some (VBool true))
         \/ (s = "false" /\ env !! aname p = Some (VBool false))))
  /\ (forall s,
      hasHexPrefix (snd (signOf (trimStart s))) = false ->
      parseInt s = parseIntRadix (Some 10%Z) s)
  /\ (forall s,
      hasHexPrefix (snd (signOf (trimStart s))) = true ->
      parseInt s
      = match readDigits 16 (dropTwo (snd (signOf (trimStart s)))) None with
        | None => NaN
        | Some mathInt =>
            match roundDouble mathInt with
            | Some m => Num (if fst (signOf (trimStart s)) then - m else m)
            | None => if fst (signOf (trimStart s)) then NegInf else PosInf
            end
        end)
  /\ (forall z, (- 2 ^ 53 < z < 2 ^ 53)%Z -> parseInt (pretty z) = Num z)
  /\ (forall s,
      s <> "true" -> s <> "false" ->
      parseBool s
      = inl (BriliError ("boolean argument to main must be 'true'/'false'; got " ++ s)))
  /\ (forall expected argv i p s,
      length argv = length expected ->
      expected !! i = Some p ->
      argv !! i = Some s ->
      atype p = TBool -> s <> "true" -> s <> "false" ->
      exists e,
        parseMainArguments expected argv = inl e
        /\ ((forall j q, j < i -> expected !! j = Some q -> atype q <> TInt) ->
            exists msg, e = BriliError msg)).
Proof.
  split; [|split; [|split; [|split; [|split; [|split]]]]].
  - intros expected argv Hlen.
    assert (Hp : parseMainArguments expected argv
                 = inl (BriliError ("mismatched main argument arity: expected "
                                    ++ pretty (length expected) ++ "; got "
                                    ++ pretty (length argv)))).
    { unfold parseMainArguments. now rewrite bool_decide_true. }
    split; [assumption|]. intros fuel prog mainf Hf <-.
    unfold evalProg, bind, lift. now rewrite Hf, Hp.
  - intros expected argv env i p s Hp Hi Hs Hlast.
    unfold parseMainArguments in Hp. case_bool_decide; [discriminate|].
    destruct (bindMain_position _ _ _ _ _ _ _ Hp Hi Hs Hlast) as [Hint Hbool].
    split; [assumption|]. intros Hty. destruct (Hbool Hty) as (b & Hb & Henv).
    apply parseBool_accepts in Hb as [[-> ->]|[-> ->]]; auto.
  - apply parseInt_base10.
  - apply parseInt_base16.
  - apply parseInt_pretty.
  - apply parseBool_rejects.
  - intros expected argv i p s Hlen Hi Hs Hty Ht Hf.
    unfold parseMainArguments. rewrite bool_decide_false by (intros Hn; now apply Hn).
    now apply (bindMain_bad_bool expected argv ∅ i p s).
Qed.

Lemma main_arguments_bound_witness :
  let expected := [ {| aname := "a"; atype := TInt |}; {| aname := "b"; atype := TBool |} ] in
  let env : Env := <[ "b" := VBool true ]> {[ "a" := VInt (-5) ]} in
  parseMainArguments expected ["-5"]
    = inl (BriliError "mismatched main argument arity: expected 2; got 1")
  /\ (exists z, parseInt "-5" = Num z /\ env !! "a" = Some (VInt z))
  /\ (exists e, parseMainArguments expected ["-5"; "yes"] = inl e).
Proof.
  intros expected env.
  destruct main_arguments_bound as (Harity & Hpos & _ & _ & _ & _ & Hbad).
  split; [|split].
  - exact (proj1 (Harity expected ["-5"] ltac:(simpl; lia))).
  - refine (proj1 (Hpos expected ["-5"; "true"] env 0 {| aname := "a"; atype := TInt |}
                     "-5" eq_refl eq_refl eq_refl _) eq_refl).
    intros j q Hj Hq. destruct j as [|[|j]]; simpl in Hq; [lia| |discriminate].
    injection Hq as <-. simpl. discriminate.
  - destruct (Hbad expected ["-5"; "yes"] 1 {| aname := "b"; atype := TBool |} "yes"
                eq_refl eq_refl eq_refl eq_refl ltac:(discriminate) ltac:(discriminate))
      as (e & He & _).
    exists e. exact He.
Defined.

(** ** The heap stays well formed *)

Lemma preserves_ret {A} P (a : A) : preserves P (ret a).
Proof. intros s Hs. exact Hs. Qed.

Lemma preserves_throw {A} P e : preserves P (@throw A e).
Proof. intros s Hs. exact Hs. Qed.

Lemma preserves_lift {A} P (c : E A) : preserves P (lift c).
Proof. intros s Hs. unfold lift. now destruct c. Qed.

Lemma preserves_fromHeap {A} P (f : Heap.t Value -> E A) : preserves P (fromHeap f).
Proof. intros s Hs. unfold fromHeap. now destruct (f (heap s)). Qed.

Lemma preserves_bind {A B} P (m : M A) (k : A -> M B) :
  preserves P m -> (forall a, preserves P (k a)) -> preserves P (bind m k).
Proof.
  intros Hm Hk s Hs. unfold bind. specialize (Hm s Hs).
  destruct (m s) as [a s'|e s'|]; [|assumption|exact I]. now apply Hk.
Qed.

Lemma preserves_console_log values : preserves wf_state (console_log values).
Proof. intros s Hs. exact Hs. Qed.

Lemma preserves_alloc amt : preserves wf_state (onHeap (Heap.alloc amt)).
Proof.
  intros s Hs. unfold onHeap.
  destruct (Heap.alloc amt (heap s)) as [e|[key h]] eqn:Ha; [assumption|].
  exact (heap_wf_alloc _ _ _ _ Hs Ha).
Qed.

Lemma preserves_free key : preserves wf_state (onHeap_ (Heap.free key)).
Proof.
  intros s Hs. unfold onHeap_, onHeap, E_bind.
  destruct (Heap.free key (heap s)) as [e|h] eqn:Hf; [assumption|].
  exact (heap_wf_free _ _ _ Hs Hf).
Qed.

Lemma preserves_write key val : preserves wf_state (onHeap_ (Heap.write key val)).
Proof.
  intros s Hs. unfold onHeap_, onHeap, E_bind.
  destruct (Heap.write key val (heap s)) as [e|h] eqn:Hw; [assumption|].
  exact (heap_wf_write _ _ _ _ Hs Hw).
Qed.

Ltac preserve :=
  repeat first
    [ apply preserves_ret | apply preserves_throw | apply preserves_lift
    | apply preserves_fromHeap | apply preserves_console_log
    | apply preserves_alloc | apply preserves_free | apply preserves_write
    | apply preserves_bind; [|intros ?]
    | match goal with
      | |- preserves _ (if ?b then _ else _) => destruct b
      | |- preserves _ (match ?x with _ => _ end) => destruct x
      end ].

Lemma evalInstr_preserves callee instr (env : Env) funcs :
  (forall f e, preserves wf_state (callee f e)) ->
  preserves wf_state (evalInstr callee instr env funcs).
Proof.
  intros Hc. unfold evalInstr.
  destruct instr as [dest ty value|op a dest ty|op a|fname a dest ty].
  - preserve.
  - unfold evalValueOp, alloc. destruct op; preserve.
  - unfold evalEffectOp. destruct op; preserve.
  - unfold evalCall. preserve; apply Hc.
Qed.

Lemma evalLoop_preserves fuel :
  forall func funcs i (env : Env), preserves wf_state (evalLoop fuel func funcs i env).
Proof.
  induction fuel as [|fuel IH]; intros func funcs i env; [intros s Hs; exact I|].
  simpl. destruct (instrs func !! i) as [[line|l]|]; [|apply IH|apply preserves_ret].
  apply preserves_bind.
  - apply evalInstr_preserves. intros f e. apply IH.
  - intros [[label| |v] env']; preserve; apply IH.
Qed.

(** Every state a program run reaches has a well-formed heap. *)
Lemma run_heap_wf fuel func funcs (env : Env) rv st' :
  evalFuncInEnv fuel func funcs env initial = Done rv st' -> heap_wf (heap st').
Proof.
  intros Hrun. pose proof (evalLoop_preserves fuel func funcs 0 env initial heap_wf_empty) as H.
  unfold evalFuncInEnv in Hrun. now rewrite Hrun in H.
Qed.

(** * Further properties of the interpreter *)

(** ** The argument count *)

(** X1. An operation whose opcode has a fixed argument count and which
    carries another number of arguments raises the count error, whatever
    the environment holds, and leaves the state as it was. *)
Theorem wrong_argument_count (callee : Function -> Env -> M ReturnValue)
    instr (env : Env) funcs st op count :
  opcode instr = Some op ->
  argCounts op = Some count ->
  length (instr_args instr) <> count ->
  evalInstr callee instr env funcs st
  = Raise (BriliError (op_name op ++ " takes " ++ pretty count ++ " argument(s); got "
                       ++ pretty (length (instr_args instr)))) st.
Proof.
  intros Hop Hcount Hlen. unfold evalInstr, bind, lift, checkArgCount.
  rewrite Hop, Hcount. unfold checkArgs. now rewrite bool_decide_true.
Qed.

Lemma wrong_argument_count_witness :
  evalInstr (fun _ _ => ret None) (ValueOperation OpAdd ["a"] "c" (Prim TInt))
    ∅ [] initial
  = Raise (BriliError "add takes 2 argument(s); got 1") initial.
Proof.
  exact (wrong_argument_count (fun _ _ => ret None)
           (ValueOperation OpAdd ["a"] "c" (Prim TInt)) ∅ [] initial
           (ValueOp OpAdd) 2 eq_refl eq_refl ltac:(simpl; lia)).
Defined.

(** ** Operations on two integers *)

Ltac run_value_op :=
  unfold evalInstr, bind, lift; simpl; unfold evalValueOp, bind, lift.

Section IntBinop.
Variable callee : Function -> Env -> M ReturnValue.

(** X2. The operands of an operation on two integers are resolved and
    checked from left to right, and the first failure is the one raised:
    an unbound first operand, then a first operand that is not an integer,
    then an unbound second operand, then a second operand that is not an
    integer. The type error does not name the type expected: its text ends
    in the placeholder itself. Nothing is bound and the state is as before. *)
Theorem int_operands_checked_in_order op x y dest ty (env : Env) funcs st :
  int_binop op = true ->
  let run := evalInstr callee (ValueOperation op [x; y] dest ty) env funcs st in
  (env !! x = None -> run = Raise (BriliError ("undefined variable " ++ x)) st)
  /\ (forall v, env !! x = Some v -> typeOf v <> TInt ->
      run = Raise (BriliError (op_name (ValueOp op)
                               ++ " argument 0 must be a {brilTyp}")) st)
  /\ (forall a, env !! x = Some (VInt a) -> env !! y = None ->
      run = Raise (BriliError ("undefined variable " ++ y)) st)
  /\ (forall a v, env !! x = Some (VInt a) -> env !! y = Some v -> typeOf v <> TInt ->
      run = Raise (BriliError (op_name (ValueOp op)
                               ++ " argument 1 must be a {brilTyp}")) st).
Proof.
  intros Hop run. subst run. split; [|split; [|split]].
  - intros Hx. destruct op; try discriminate; run_value_op;
      unfold getInt, getArgument;
      now rewrite (getAt_unbound env [x; y] 0 x eq_refl Hx).
  - intros v Hx Hv. destruct op; try discriminate; run_value_op;
      now rewrite (getInt_mismatch _ env [x; y] 0 x v eq_refl Hx Hv).
  - intros a Hx Hy. destruct op; try discriminate; run_value_op;
      rewrite (getInt_ok _ env [x; y] 0 x a eq_refl Hx);
      unfold getInt, getArgument;
      now rewrite (getAt_unbound env [x; y] 1 y eq_refl Hy).
  - intros a v Hx Hy Hv. destruct op; try discriminate; run_value_op;
      rewrite (getInt_ok _ env [x; y] 0 x a eq_refl Hx);
      now rewrite (getInt_mismatch _ env [x; y] 1 y v eq_refl Hy Hv).
Qed.

(** X3. [add], [sub] and [mul] compute on integers of any size, without
    wrap-around, and bind the destination to the exact result; the
    destination may be one of the operands. The state is not touched. *)
Theorem exact_arithmetic x y dest ty (env : Env) funcs st (a b : Z) :
  env !! x = Some (VInt a) ->
  env !! y = Some (VInt b) ->
  evalInstr callee (ValueOperation OpAdd [x; y] dest ty) env funcs st
    = Done (NEXT, <[dest := VInt (a + b)]> env) st
  /\ evalInstr callee (ValueOperation OpSub [x; y] dest ty) env funcs st
    = Done (NEXT, <[dest := VInt (a - b)]> env) st
  /\ evalInstr callee (ValueOperation OpMul [x; y] dest ty) env funcs st
    = Done (NEXT, <[dest := VInt (a * b)]> env) st.
Proof.
  intros Hx Hy. repeat apply conj; run_value_op;
    rewrite (getInt_ok _ env [x; y] 0 x a eq_refl Hx);
    now rewrite (getInt_ok _ env [x; y] 1 y b eq_refl Hy).
Qed.

(** X4. The comparisons bind a boolean that is true exactly when the
    relation holds between the two integers: [lt] for less, [le] for less
    or equal, [gt] for greater, [ge] for greater or equal, [eq] for equal. *)
Theorem comparisons_decide x y dest ty (env : Env) funcs st (a b : Z) :
  env !! x = Some (VInt a) ->
  env !! y = Some (VInt b) ->
  forall op (R : Z -> Z -> Prop),
    (op = OpLt /\ R = Z.lt) \/ (op = OpLe /\ R = Z.le) \/ (op = OpGt /\ R = Z.gt)
    \/ (op = OpGe /\ R = Z.ge) \/ (op = OpEq /\ R = eq) ->
    exists r : bool,
      evalInstr callee (ValueOperation op [x; y] dest ty) env funcs st
      = Done (NEXT, <[dest := VBool r]> env) st
      /\ (r = true <-> R a b).
Proof.
  intros Hx Hy op R Hop.
  destruct Hop as [[-> ->]|[[-> ->]|[[-> ->]|[[-> ->]|[-> ->]]]]];
    eexists; (split; [run_value_op;
      rewrite (getInt_ok _ env [x; y] 0 x a eq_refl Hx);
      rewrite (getInt_ok _ env [x; y] 1 y b eq_refl Hy); reflexivity|]).
  - apply Z.ltb_lt.
  - apply Z.leb_le.
  - apply Z.gtb_gt.
  - apply Z.geb_ge.
  - apply Z.eqb_eq.
Qed.

(** X5. With a divisor that is not 0, [div] binds the quotient truncated
    towards zero, for operands of either sign: the remainder it leaves is
    smaller than the divisor in magnitude and has the sign of the dividend. *)
Theorem div_truncates_towards_zero x y dest ty (env : Env) funcs st (a b : Z) :
  env !! x = Some (VInt a) ->
  env !! y = Some (VInt b) ->
  b <> 0%Z ->
  exists q r : Z,
    evalInstr callee (ValueOperation OpDiv [x; y] dest ty) env funcs st
    = Done (NEXT, <[dest := VInt q]> env) st
    /\ a = (b * q + r)%Z /\ (Z.abs r < Z.abs b)%Z /\ (0 <= r * a)%Z.
Proof.
  intros Hx Hy Hb. exists (Z.quot a b), (Z.rem a b). split; [|split; [|split]].
  - run_value_op.
    rewrite (getInt_ok _ env [x; y] 0 x a eq_refl Hx).
    rewrite (getInt_ok _ env [x; y] 1 y b eq_refl Hy).
    unfold bigint_div. now destruct (Z.eqb_spec b 0).
  - apply Z.quot_rem'.
  - now apply Z.rem_bound_abs.
  - now apply Z.rem_sign_mul.
Qed.

End IntBinop.

Lemma int_operands_checked_in_order_witness :
  let idle : Function -> Env -> M ReturnValue := fun _ _ => ret None in
  let env : Env := <[ "b" := VBool true ]> {[ "a" := VInt 1 ]} in
  evalInstr idle (ValueOperation OpLt ["u"; "v"] "c" (Prim TBool)) env [] initial
    = Raise (BriliError "undefined variable u") initial
  /\ evalInstr idle (ValueOperation OpLt ["a"; "b"] "c" (Prim TBool)) env [] initial
    = Raise (BriliError "lt argument 1 must be a {brilTyp}") initial.
Proof.
  intros idle env. split.
  - exact (proj1 (int_operands_checked_in_order idle OpLt "u" "v" "c" (Prim TBool)
                    env [] initial eq_refl) eq_refl).
  - exact (proj2 (proj2 (proj2 (int_operands_checked_in_order idle OpLt "a" "b" "c"
                                  (Prim TBool) env [] initial eq_refl)))
             1%Z (VBool true) eq_refl eq_refl ltac:(discriminate)).
Defined.

Lemma exact_arithmetic_witness :
  let idle : Function -> Env -> M ReturnValue := fun _ _ => ret None in
  let env : Env := {[ "a" := VInt (2 ^ 64) ]} in
  evalInstr idle (ValueOperation OpMul ["a"; "a"] "a" (Prim TInt)) env [] initial
  = Done (NEXT, <["a" := VInt (2 ^ 64 * 2 ^ 64)]> env) initial.
Proof.
  intros idle env.
  exact (proj2 (proj2 (exact_arithmetic idle "a" "a" "a" (Prim TInt) env [] initial
                         (2 ^ 64) (2 ^ 64) eq_refl eq_refl))).
Defined.

Lemma comparisons_decide_witness :
  let idle : Function -> Env -> M ReturnValue := fun _ _ => ret None in
  let env : Env := <[ "b" := VInt 5 ]> {[ "a" := VInt 3 ]} in
  exists r : bool,
    evalInstr idle (ValueOperation OpGe ["a"; "b"] "c" (Prim TBool)) env [] initial
    = Done (NEXT, <["c" := VBool r]> env) initial
    /\ (r = true <-> (3 >= 5)%Z).
Proof.
  intros idle env.
  exact (comparisons_decide idle "a" "b" "c" (Prim TBool) env [] initial 3 5
           eq_refl eq_refl OpGe Z.ge
           (or_intror (or_intror (or_intror (or_introl (conj eq_refl eq_refl)))))).
Defined.

Lemma div_truncates_towards_zero_witness :
  let idle : Function -> Env -> M ReturnValue := fun _ _ => ret None in
  let env : Env := <[ "b" := VInt 2 ]> {[ "a" := VInt (-7) ]} in
  exists q r : Z,
    evalInstr idle (ValueOperation OpDiv ["a"; "b"] "c" (Prim TInt)) env [] initial
    = Done (NEXT, <["c" := VInt q]> env) initial
    /\ (-7)%Z = (2 * q + r)%Z /\ (Z.abs r < Z.abs 2)%Z /\ (0 <= r * -7)%Z.
Proof.
  intros idle env.
  exact (div_truncates_towards_zero idle "a" "b" "c" (Prim TInt) env [] initial
           (-7) 2 eq_refl eq_refl ltac:(discriminate)).
Defined.

(** ** Declared types, [id] and [const] *)

(** X6. The type written on a [const] or on a value operation other than
    [alloc] is never consulted: under any other annotation the instruction
    does the same. So [id] copies a value of any runtime type, whatever
    type its destination is declared with, and a [const] binds its literal
    as it is. *)
Theorem declared_type_unchecked (callee : Function -> Env -> M ReturnValue)
    (env : Env) funcs st :
  (forall op a dest ty ty',
      op <> OpAlloc ->
      evalInstr callee (ValueOperation op a dest ty) env funcs st
      = evalInstr callee (ValueOperation op a dest ty') env funcs st)
  /\ (forall dest ty value,
      evalInstr callee (Constant dest ty value) env funcs st
      = Done (NEXT, <[dest := literal value]> env) st)
  /\ (forall x dest ty v,
      env !! x = Some v ->
      evalInstr callee (ValueOperation OpId [x] dest ty) env funcs st
      = Done (NEXT, <[dest := v]> env) st).
Proof.
  split; [|split].
  - intros op a dest ty ty' Hop. destruct op; try reflexivity. now contradiction Hop.
  - reflexivity.
  - intros x dest ty v Hx. run_value_op.
    now rewrite (getAt_bound env [x] 0 x v eq_refl Hx).
Qed.

Lemma declared_type_unchecked_witness :
  let idle : Function -> Env -> M ReturnValue := fun _ _ => ret None in
  let env : Env := {[ "b" := VBool true ]} in
  evalInstr idle (ValueOperation OpId ["b"] "n" (Prim TInt)) env [] initial
  = Done (NEXT, <["n" := VBool true]> env) initial.
Proof.
  intros idle env.
  exact (proj2 (proj2 (declared_type_unchecked idle env [] initial))
           "b" "n" (Prim TInt) (VBool true) eq_refl).
Defined.

(** ** [print] *)

Lemma printValues_bound (env : Env) a vs :
  Forall2 (fun x v => env !! x = Some v) a vs ->
  printValues env a = inr (map toString vs).
Proof.
  induction 1 as [|x v a vs Hx _ IH]; [reflexivity|].
  simpl. unfold get. rewrite Hx. simpl. now rewrite IH.
Qed.

Lemma printValues_unbound (env : Env) pre vs x post :
  Forall2 (fun x v => env !! x = Some v) pre vs ->
  env !! x = None ->
  printValues env (pre ++ x :: post) = inl (BriliError ("undefined variable " ++ x)).
Proof.
  intros Hpre Hx. induction Hpre as [|x0 v a vs0 Hx0 _ IH].
  - simpl. unfold get. now rewrite Hx.
  - simpl. unfold get at 1. rewrite Hx0. simpl. now rewrite IH.
Qed.

(** X7. A [print] whose arguments are all bound appends one line to the
    output, the texts of the values in argument order joined by single
    spaces (an empty line for no argument), and changes nothing else. If
    some argument is unbound it raises the error for the first such
    argument and prints nothing, not even the values before it. *)
Theorem print_line_or_nothing (callee : Function -> Env -> M ReturnValue)
    (env : Env) funcs st :
  (forall a vs,
      Forall2 (fun x v => env !! x = Some v) a vs ->
      evalInstr callee (EffectOperation OpPrint a) env funcs st
      = Done (NEXT, env)
          {| heap := heap st;
             out := out st ++ [String.concat " " (map toString vs)] |})
  /\ (forall pre vs x post,
      Forall2 (fun x v => env !! x = Some v) pre vs ->
      env !! x = None ->
      evalInstr callee (EffectOperation OpPrint (pre ++ x :: post)) env funcs st
      = Raise (BriliError ("undefined variable " ++ x)) st).
Proof.
  split.
  - intros a vs Ha. unfold evalInstr, bind, lift. simpl.
    unfold evalEffectOp, bind, lift. now rewrite (printValues_bound env a vs Ha).
  - intros pre vs x post Hpre Hx. unfold evalInstr, bind, lift. simpl.
    unfold evalEffectOp, bind, lift.
    now rewrite (printValues_unbound env pre vs x post Hpre Hx).
Qed.

Lemma print_line_or_nothing_witness :
  let idle : Function -> Env -> M ReturnValue := fun _ _ => ret None in
  let env : Env := <[ "b" := VBool true ]> {[ "a" := VInt (-3) ]} in
  evalInstr idle (EffectOperation OpPrint ["a"; "b"; "a"]) env [] initial
    = Done (NEXT, env) {| heap := Heap.empty; out := ["-3 true -3"] |}
  /\ evalInstr idle (EffectOperation OpPrint ["a"; "u"; "b"]) env [] initial
    = Raise (BriliError "undefined variable u") initial.
Proof.
  intros idle env. split.
  - refine (proj1 (print_line_or_nothing idle env [] initial)
              ["a"; "b"; "a"] [VInt (-3); VBool true; VInt (-3)] _).
    repeat constructor.
  - refine (proj2 (print_line_or_nothing idle env [] initial)
              ["a"] [VInt (-3)] "u" ["b"] _ eq_refl).
    repeat constructor.
Defined.

(** ** Branches and returns inside a function *)

(** X8. A [br] on a boolean condition goes on after the first entry that
    carries the label it takes, the first label for true and the second for
    false; only that label is looked for, the other one need not exist.
    When the label taken is missing the function raises the label error,
    and a condition that is not a boolean raises the type error. *)
Theorem branch_takes_one_label fuel func funcs i (env : Env) st c l1 l2 :
  instrs func !! i = Some (Instr (EffectOperation OpBr [c; l1; l2])) ->
  (forall b j,
      env !! c = Some (VBool b) ->
      instrs func !! j = Some (Label (if b then l1 else l2)) ->
      (forall k, k < j -> instrs func !! k <> Some (Label (if b then l1 else l2))) ->
      evalLoop (S fuel) func funcs i env st = evalLoop fuel func funcs (S j) env st)
  /\ (forall b,
      env !! c = Some (VBool b) ->
      (forall k, instrs func !! k <> Some (Label (if b then l1 else l2))) ->
      evalLoop (S fuel) func funcs i env st
      = Raise (BriliError ("label " ++ (if b then l1 else l2) ++ " not found")) st)
  /\ (forall v,
      env !! c = Some v -> typeOf v <> TBool ->
      evalLoop (S fuel) func funcs i env st
      = Raise (BriliError "br argument 0 must be a {brilTyp}") st).
Proof.
  intros Hline.
  assert (Hbr : forall b, env !! c = Some (VBool b) ->
            evalLoop (S fuel) func funcs i env st
            = let l := if b then l1 else l2 in
              if bool_decide (searchLabel l (instrs func) = length (instrs func))
              then Raise (BriliError ("label " ++ l ++ " not found")) st
              else evalLoop fuel func funcs (S (searchLabel l (instrs func))) env st).
  { intros b Hc. simpl. rewrite Hline. unfold bind, evalInstr, bind, lift. simpl.
    unfold evalEffectOp, bind, lift.
    rewrite (getBool_ok _ env [c; l1; l2] 0 c b eq_refl Hc).
    destruct b; unfold ret, labelAt; simpl; now case_bool_decide. }
  split; [|split].
  - intros b j Hc Hj Hfirst. rewrite (Hbr b Hc). cbv zeta.
    rewrite (searchLabel_first _ _ _ Hj Hfirst). apply lookup_lt_Some in Hj.
    now rewrite bool_decide_false by lia.
  - intros b Hc Habs. rewrite (Hbr b Hc). cbv zeta.
    rewrite (searchLabel_absent _ _ Habs). now rewrite bool_decide_true.
  - intros v Hc Hv. simpl. rewrite Hline. unfold bind, evalInstr, bind, lift. simpl.
    unfold evalEffectOp, bind, lift.
    now rewrite (getBool_mismatch _ env [c; l1; l2] 0 c v eq_refl Hc Hv).
Qed.

(** X9. A [ret] ends the function at once, whatever follows it: without an
    argument the function returns no value; with one argument it returns
    the value bound to it, of whatever type, or raises if it is unbound;
    with more arguments it raises the count error of [ret]. *)
Theorem ret_ends_function fuel func funcs i (env : Env) st a :
  instrs func !! i = Some (Instr (EffectOperation OpRet a)) ->
  (a = [] -> evalLoop (S fuel) func funcs i env st = Done None st)
  /\ (forall x v, a = [x] -> env !! x = Some v ->
      evalLoop (S fuel) func funcs i env st = Done (Some v) st)
  /\ (forall x, a = [x] -> env !! x = None ->
      evalLoop (S fuel) func funcs i env st
      = Raise (BriliError ("undefined variable " ++ x)) st)
  /\ (2 <= length a ->
      evalLoop (S fuel) func funcs i env st
      = Raise (BriliError ("ret takes 0 or 1 argument(s); got " ++ pretty (length a))) st).
Proof.
  intros Hline. split; [|split; [|split]].
  - intros ->. simpl. now rewrite Hline.
  - intros x v -> Hx. simpl. rewrite Hline. unfold bind, evalInstr, bind, lift. simpl.
    unfold evalEffectOp, bind, lift. simpl.
    now rewrite (getAt_bound env [x] 0 x v eq_refl Hx).
  - intros x -> Hx. simpl. rewrite Hline. unfold bind, evalInstr, bind, lift. simpl.
    unfold evalEffectOp, bind, lift. simpl.
    now rewrite (getAt_unbound env [x] 0 x eq_refl Hx).
  - intros Hlen. simpl. rewrite Hline. unfold bind, evalInstr, bind, lift. simpl.
    unfold evalEffectOp, bind, lift, throw.
    rewrite bool_decide_false by lia. now rewrite bool_decide_false by lia.
Qed.

Lemma branch_takes_one_label_witness :
  evalLoop 5 brancher [brancher] 0 {[ "c" := VBool true ]} initial
    = evalLoop 4 brancher [brancher] 2 {[ "c" := VBool true ]} initial
  /\ evalLoop 5 brancher [brancher] 0 {[ "c" := VBool false ]} initial
    = Raise (BriliError "label no not found") initial.
Proof.
  destruct (branch_takes_one_label 4 brancher [brancher] 0 {[ "c" := VBool true ]}
              initial "c" "yes" "no" eq_refl) as (Hgo & _ & _).
  destruct (branch_takes_one_label 4 brancher [brancher] 0 {[ "c" := VBool false ]}
              initial "c" "yes" "no" eq_refl) as (_ & Hmiss & _).
  split.
  - apply (Hgo true 1 eq_refl eq_refl).
    intros k Hk. destruct k as [|k]; simpl; [discriminate|lia].
  - apply (Hmiss false eq_refl).
    intros k. destruct k as [|[|[|[|k]]]]; simpl; discriminate.
Defined.

Lemma ret_ends_function_witness :
  evalLoop 1 brancher [brancher] 2 {[ "c" := VBool true ]} initial
  = Done (Some (VBool true)) initial.
Proof.
  exact (proj1 (proj2 (ret_ends_function 0 brancher [brancher] 2 {[ "c" := VBool true ]}
                         initial ["c"] eq_refl))
           "c" (VBool true) eq_refl eq_refl).
Defined.

(** ** More on calls *)

Section Calls.
Variable callee : Function -> Env -> M ReturnValue.

(** X10. A call without destination and type, to a function that has been
    found and whose arguments are bound: if the callee returns a value the
    call raises the unexpected-value error; if it returns none but is
    declared with a return type the call raises the non-void error naming
    that type; otherwise the call falls through and the caller's
    environment is as before. The state is the one the callee left. *)
Theorem call_void fname cargs (env : Env) funcs st func newEnv rv st' :
  findFunc fname funcs = inr func ->
  length (args func) = length cargs ->
  bindArgs env (args func) cargs 0 ∅ = inr newEnv ->
  callee func newEnv st = Done rv st' ->
  let call := evalInstr callee (CallOperation fname cargs None None) env funcs st in
  (forall v, rv = Some v ->
     call = Raise (BriliError "unexpected value returned without destination") st')
  /\ (forall t, rv = None -> rtype func = Some t ->
     call = Raise (BriliError ("non-void function (type: " ++ type_name t
                               ++ ") doesn't return anything")) st')
  /\ (rv = None -> rtype func = None -> call = Done (NEXT, env) st').
Proof.
  intros Hf Hlen Hbind Hrun call. subst call.
  rewrite (evalCall_bound callee fname cargs None None env funcs st func newEnv
             Hf Hlen Hbind), Hrun.
  split; [now intros v ->|]. split; [now intros t -> ->|now intros -> ->].
Qed.

(** X11. A call that carries a destination without a type, or a type
    without a destination, is rejected only after the callee has run: the
    error is raised in the state the callee left, with what the callee
    printed and did to the heap, whatever it returned. *)
Theorem call_shape_checked_after_callee fname cargs (env : Env) funcs st func newEnv
    rv st' :
  findFunc fname funcs = inr func ->
  length (args func) = length cargs ->
  bindArgs env (args func) cargs 0 ∅ = inr newEnv ->
  callee func newEnv st = Done rv st' ->
  (forall d,
      evalInstr callee (CallOperation fname cargs (Some d) None) env funcs st
      = Raise (BriliError "function call must include a type if it has a destination") st')
  /\ (forall t,
      evalInstr callee (CallOperation fname cargs None (Some t)) env funcs st
      = Raise (BriliError "function call must include a destination if it has a type") st').
Proof.
  intros Hf Hlen Hbind Hrun. split.
  - intros d.
    now rewrite (evalCall_bound callee fname cargs (Some d) None env funcs st func newEnv
                   Hf Hlen Hbind), Hrun.
  - intros t.
    now rewrite (evalCall_bound callee fname cargs None (Some t) env funcs st func newEnv
                   Hf Hlen Hbind), Hrun.
Qed.

(** X12. Whatever the callee does, a call that returns falls through to
    the next instruction, and the caller's environment after it is the one
    before it, with at most the destination of the call bound anew: a
    callee cannot change, or add, a variable of its caller. *)
Theorem call_frames_caller fname cargs dest ty (env env' : Env) funcs st act st' :
  evalInstr callee (CallOperation fname cargs dest ty) env funcs st
  = Done (act, env') st' ->
  act = NEXT
  /\ ((dest = None /\ env' = env) \/ (exists d v, dest = Some d /\ env' = <[d := v]> env)).
Proof.
  unfold evalInstr, bind, lift. simpl. unfold evalCall, bind, lift, throw, ret.
  destruct (findFunc fname funcs) as [e|func]; [discriminate|].
  case_bool_decide; [discriminate|].
  destruct (bindArgs env (args func) cargs 0 ∅) as [e|newEnv]; [discriminate|].
  destruct (callee func newEnv st) as [rv s1|e s1|]; [|discriminate|discriminate].
  destruct dest as [d|], ty as [t|]; try discriminate.
  - destruct rv as [v|]; [|discriminate].
    case_bool_decide; [discriminate|]. case_bool_decide; [discriminate|].
    intros [= <- <- <-]. split; [reflexivity|]. right. eauto.
  - destruct rv as [v|]; [discriminate|]. destruct (rtype func); [discriminate|].
    intros [= <- <- <-]. auto.
Qed.

(** X13. A call to a name that no function of the table carries, or that
    several carry, raises the lookup error before the arguments are counted
    or looked up, in the unchanged state. *)
Theorem call_unknown_function fname cargs dest ty (env : Env) funcs st :
  ((forall f, f ∈ funcs -> name f <> fname) ->
     evalInstr callee (CallOperation fname cargs dest ty) env funcs st
     = Raise (BriliError ("no function of name " ++ fname ++ " found")) st)
  /\ (1 < length (filter (fun f => name f = fname) funcs) ->
     evalInstr callee (CallOperation fname cargs dest ty) env funcs st
     = Raise (BriliError ("multiple functions of name " ++ fname ++ " found")) st).
Proof.
  split; intros H; unfold evalInstr, bind, lift; simpl; unfold evalCall, bind, lift.
  - now rewrite (findFunc_absent _ _ H).
  - now rewrite (findFunc_ambiguous _ _ H).
Qed.

End Calls.

Lemma bindArgs_other env cargs params :
  forall i (newEnv out_ : Env) z,
    bindArgs env params cargs i newEnv = inr out_ ->
    (forall q, q ∈ params -> aname q <> z) ->
    out_ !! z = newEnv !! z.
Proof.
  induction params as [|p params IH]; intros i newEnv out_ z Hb Hne.
  - simpl in Hb. now injection Hb as <-.
  - simpl in Hb. destruct (getAt env cargs i) as [e|v]; [discriminate|]. simpl in Hb.
    case_bool_decide; [discriminate|].
    rewrite (IH _ _ _ _ Hb) by (intros q Hq; apply Hne; now right).
    apply lookup_insert_ne. apply Hne. left.
Qed.

Lemma bindArgs_position env cargs params :
  forall i (newEnv out_ : Env) j p,
    bindArgs env params cargs i newEnv = inr out_ ->
    params !! j = Some p ->
    last_of_its_name params j p ->
    exists x v,
      cargs !! (i + j) = Some x /\ env !! x = Some v /\ typeOf v = atype p
      /\ out_ !! aname p = Some v.
Proof.
  induction params as [|p0 params IH]; intros i newEnv out_ j p Hb Hj Hlast.
  - now rewrite lookup_nil in Hj.
  - simpl in Hb. destruct (getAt env cargs i) as [e|v] eqn:Hget; [discriminate|].
    simpl in Hb. case_bool_decide as Hty; [discriminate|].
    destruct j as [|j].
    + simpl in Hj. injection Hj as ->.
      unfold getAt in Hget. destruct (cargs !! i) as [x|] eqn:Hx; [|discriminate].
      unfold get in Hget. destruct (env !! x) as [v'|] eqn:Hv; [|discriminate].
      injection Hget as ->. exists x, v. rewrite Nat.add_0_r.
      split; [assumption|]. split; [assumption|]. split.
      * symmetry. apply typeof_typeOf.
        destruct (decide (brilTypeToDynamicType (atype p) = typeof v)); [assumption|].
        now contradiction Hty.
      * rewrite (bindArgs_other _ _ _ _ _ _ _ Hb).
        -- apply lookup_insert_eq.
        -- intros q Hq. apply list_elem_of_lookup in Hq as [k Hk].
           apply (Hlast (S k) q); [lia|assumption].
    + simpl in Hj.
      destruct (IH (S i) _ _ j p Hb Hj) as (x & v' & Hx & Hv & Hty' & Hout).
      * intros k q Hk Hq. apply (Hlast (S k) q); [lia|assumption].
      * exists x, v'. replace (i + S j) with (S i + j) by lia. auto.
Qed.

(** X14. The environment in which a callee starts holds its parameters and
    nothing else: each parameter (the last of its name) is bound to the
    value of the argument at its position, a value of the declared type of
    the parameter, and every name that is not a parameter is unbound, so
    no variable of the caller is visible. *)
Theorem callee_sees_only_parameters (env newEnv : Env) params cargs :
  bindArgs env params cargs 0 ∅ = inr newEnv ->
  (forall j p,
      params !! j = Some p ->
      last_of_its_name params j p ->
      exists x v,
        cargs !! j = Some x /\ env !! x = Some v /\ typeOf v = atype p
        /\ newEnv !! aname p = Some v)
  /\ (forall z, (forall q, q ∈ params -> aname q <> z) -> newEnv !! z = None).
Proof.
  intros Hb. split.
  - intros j p Hj Hlast. exact (bindArgs_position env cargs params 0 ∅ newEnv j p Hb Hj Hlast).
  - intros z Hz. rewrite (bindArgs_other _ _ _ _ _ _ _ Hb Hz). apply lookup_empty.
Qed.

Lemma call_void_witness :
  let funcs := [void_value_callee; silent_callee] in
  let callee : Function -> Env -> M ReturnValue := fun f e => evalFuncInEnv 10 f funcs e in
  evalInstr callee (CallOperation "v" [] None None) ∅ funcs initial
    = Raise (BriliError "unexpected value returned without destination")
        {| heap := Heap.empty; out := ["1"] |}
  /\ evalInstr callee (CallOperation "g" [] None None) ∅ funcs initial
    = Raise (BriliError "non-void function (type: int) doesn't return anything") initial.
Proof.
  intros funcs callee. split.
  - exact (proj1 (call_void callee "v" [] ∅ funcs initial void_value_callee ∅
                    (Some (VInt 1)) {| heap := Heap.empty; out := ["1"] |}
                    eq_refl eq_refl eq_refl eq_refl) (VInt 1) eq_refl).
  - exact (proj1 (proj2 (call_void callee "g" [] ∅ funcs initial silent_callee ∅
                           None initial eq_refl eq_refl eq_refl eq_refl))
             TInt eq_refl eq_refl).
Defined.

Lemma call_shape_checked_after_callee_witness :
  let funcs := [void_value_callee] in
  let callee : Function -> Env -> M ReturnValue := fun f e => evalFuncInEnv 10 f funcs e in
  evalInstr callee (CallOperation "v" [] (Some "r") None) ∅ funcs initial
  = Raise (BriliError "function call must include a type if it has a destination")
      {| heap := Heap.empty; out := ["1"] |}.
Proof.
  intros funcs callee.
  exact (proj1 (call_shape_checked_after_callee callee "v" [] ∅ funcs initial
                  void_value_callee ∅ (Some (VInt 1))
                  {| heap := Heap.empty; out := ["1"] |}
                  eq_refl eq_refl eq_refl eq_refl) "r").
Defined.

Lemma call_frames_caller_witness :
  let funcs := [typed_callee] in
  let env : Env := <[ "x" := VBool false ]> {[ "a" := VInt 5 ]} in
  NEXT = NEXT
  /\ ((Some "r" = None /\ <["r" := VInt 5]> env = env)
      \/ exists d v, Some "r" = Some d /\ <["r" := VInt 5]> env = <[d := v]> env).
Proof.
  intros funcs env.
  exact (call_frames_caller (fun f e => evalFuncInEnv 10 f funcs e) "f" ["a"]
           (Some "r") (Some TInt) env (<["r" := VInt 5]> env) funcs initial NEXT
           {| heap := Heap.empty; out := ["5"] |} eq_refl).
Defined.

Lemma call_unknown_function_witness :
  evalInstr (fun _ _ => ret None) (CallOperation "h" ["u"] None None) ∅ [typed_callee]
    initial
  = Raise (BriliError "no function of name h found") initial.
Proof.
  refine (proj1 (call_unknown_function (fun _ _ => ret None) "h" ["u"] None None ∅
                   [typed_callee] initial) _).
  intros f Hf. apply list_elem_of_singleton in Hf as ->. simpl. discriminate.
Defined.

Lemma callee_sees_only_parameters_witness :
  let env : Env := <[ "secret" := VBool true ]> {[ "a" := VInt 5 ]} in
  let newEnv : Env := {[ "x" := VInt 5 ]} in
  (exists x v, ["a"] !! 0 = Some x /\ env !! x = Some v /\ typeOf v = TInt
               /\ newEnv !! "x" = Some v)
  /\ newEnv !! "secret" = None.
Proof.
  intros env newEnv.
  destruct (callee_sees_only_parameters env newEnv (args typed_callee) ["a"] eq_refl)
    as [Hpos Hother].
  split.
  - refine (Hpos 0 {| aname := "x"; atype := TInt |} eq_refl _).
    intros j q Hj Hq. destruct j as [|j]; [lia|]. simpl in Hq. discriminate.
  - apply Hother. intros q Hq. apply list_elem_of_singleton in Hq as ->.
    simpl. discriminate.
Defined.

(** ** Pointers *)

Section Pointers.
Variable callee : Function -> Env -> M ReturnValue.

Ltac run_effect_op :=
  unfold evalInstr, bind, lift; simpl; unfold evalEffectOp, bind, lift.

(** X15. [free], [load], [store] and [ptradd] want a pointer as their
    first operand: bound to an integer or a boolean, it makes them throw a
    plain message (not a [BriliError]), named after the opcode, and the
    state is as before. *)
Theorem pointer_operand_required x y dest ty (env : Env) funcs st v :
  env !! x = Some v ->
  typeOf v <> TPtr ->
  evalInstr callee (EffectOperation OpFree [x]) env funcs st
    = Raise (Thrown "free argument 0 must be a Pointer") st
  /\ evalInstr callee (ValueOperation OpLoad [x] dest ty) env funcs st
    = Raise (Thrown "load argument 0 must be a Pointer") st
  /\ evalInstr callee (EffectOperation OpStore [x; y]) env funcs st
    = Raise (Thrown "store argument 0 must be a Pointer") st
  /\ evalInstr callee (ValueOperation OpPtradd [x; y] dest ty) env funcs st
    = Raise (Thrown "ptradd argument 0 must be a Pointer") st.
Proof.
  intros Hx Hv. split; [|split; [|split]].
  - run_effect_op. now rewrite (getPtr_mismatch _ env [x] 0 x v eq_refl Hx Hv).
  - run_value_op. now rewrite (getPtr_mismatch _ env [x] 0 x v eq_refl Hx Hv).
  - run_effect_op. now rewrite (getPtr_mismatch _ env [x; y] 0 x v eq_refl Hx Hv).
  - run_value_op. now rewrite (getPtr_mismatch _ env [x; y] 0 x v eq_refl Hx Hv).
Qed.

(** X16. [ptradd] makes a pointer with the element type and the
    allocation of its operand, shifted by the host number of the integer,
    and binds it; it neither changes nor consults the heap, so it succeeds
    the same on a pointer into a freed block or past the end of a block. *)
Theorem ptradd_unchecked x y dest ty (env : Env) funcs st p n :
  env !! x = Some (VPtr p) ->
  env !! y = Some (VInt n) ->
  exists q,
    evalInstr callee (ValueOperation OpPtradd [x; y] dest ty) env funcs st
    = Done (NEXT, <[dest := VPtr q]> env) st
    /\ type q = type p
    /\ base (loc q) = base (loc p)
    /\ loc q = Key_add (loc p) (Number n).
Proof.
  intros Hx Hy. eexists. split.
  - run_value_op. rewrite (getPtr_ok _ env [x; y] 0 x p eq_refl Hx).
    now rewrite (getInt_ok _ env [x; y] 1 y n eq_refl Hy).
  - auto.
Qed.

(** X17. A [store] through a pointer to a live slot followed by a [load]
    through the same pointer binds the stored value, and the [load] leaves
    the heap as the [store] made it. (The heap is the one modelled from the
    specification.) *)
Theorem store_then_load x y dest ty (env : Env) funcs st p v data i :
  env !! x = Some (VPtr p) ->
  env !! y = Some v ->
  typeOf v = type p ->
  Heap.slot (loc p) (heap st) = Some (data, i) ->
  exists st',
    evalInstr callee (EffectOperation OpStore [x; y]) env funcs st = Done (NEXT, env) st'
    /\ evalInstr callee (ValueOperation OpLoad [x] dest ty) env funcs st'
       = Done (NEXT, <[dest := v]> env) st'.
Proof.
  intros Hx Hy Hty Hslot.
  destruct (write_read (loc p) v (heap st) data i Hslot) as (h' & Hw & Hr).
  exists {| heap := h'; out := out st |}. split.
  - run_effect_op. rewrite (getPtr_ok _ env [x; y] 0 x p eq_refl Hx).
    destruct v as [b|q|n]; simpl in Hty; rewrite <- Hty.
    + rewrite (getBool_ok _ env [x; y] 1 y b eq_refl Hy).
      unfold onHeap_, onHeap, E_bind. now rewrite Hw.
    + rewrite (getPtr_ok _ env [x; y] 1 y q eq_refl Hy).
      unfold onHeap_, onHeap, E_bind. now rewrite Hw.
    + rewrite (getInt_ok _ env [x; y] 1 y n eq_refl Hy).
      unfold onHeap_, onHeap, E_bind. now rewrite Hw.
  - run_value_op. rewrite (getPtr_ok _ env [x] 0 x p eq_refl Hx).
    unfold fromHeap. simpl. now rewrite Hr.
Qed.

(** X18. A [free] through a pointer at offset 0 of a live block releases
    the block: afterwards the block is not live, and a [load], a [store] or
    a second [free] through that pointer raises a fault of the heap. A
    [free] through a pointer at another offset, or of a block that is not
    live, raises and leaves the heap as it was. (The heap is the one
    modelled from the specification.) *)
Theorem free_releases x y dest ty (env : Env) funcs st p :
  env !! x = Some (VPtr p) ->
  (forall blk,
      Heap.storage (heap st) !! base (loc p) = Some blk ->
      offset (loc p) = Num 0 ->
      exists st',
        evalInstr callee (EffectOperation OpFree [x]) env funcs st = Done (NEXT, env) st'
        /\ ~ live (heap st') (base (loc p))
        /\ out st' = out st
        /\ evalInstr callee (EffectOperation OpFree [x]) env funcs st'
           = Raise (HeapError InvalidFree) st'
        /\ evalInstr callee (ValueOperation OpLoad [x] dest ty) env funcs st'
           = Raise (HeapError InvalidAccess) st'
        /\ (forall v, env !! y = Some v -> typeOf v = type p ->
            evalInstr callee (EffectOperation OpStore [x; y]) env funcs st'
            = Raise (HeapError InvalidAccess) st'))
  /\ (~ live (heap st) (base (loc p)) \/ offset (loc p) <> Num 0 ->
      evalInstr callee (EffectOperation OpFree [x]) env funcs st
      = Raise (HeapError InvalidFree) st).
Proof.
  intros Hx. split.
  - intros blk Hblk Hoff.
    exists {| heap := Heap.mk (delete (base (loc p)) (Heap.storage (heap st)))
                        (Heap.count (heap st));
              out := out st |}.
    assert (Hgone : delete (base (loc p)) (Heap.storage (heap st)) !! base (loc p)
                    = None) by apply lookup_delete_eq.
    split; [|split; [|split; [|split; [|split]]]].
    + run_effect_op. rewrite (getPtr_ok _ env [x] 0 x p eq_refl Hx).
      unfold onHeap_, onHeap, E_bind, Heap.free. now rewrite Hblk, Hoff.
    + intros [b Hb]. simpl in Hb. congruence.
    + reflexivity.
    + run_effect_op. rewrite (getPtr_ok _ env [x] 0 x p eq_refl Hx).
      unfold onHeap_, onHeap, E_bind, Heap.free. simpl. now rewrite Hgone.
    + run_value_op. rewrite (getPtr_ok _ env [x] 0 x p eq_refl Hx).
      unfold fromHeap, Heap.read, Heap.slot. simpl. now rewrite Hgone.
    + intros v Hy Hty. run_effect_op.
      rewrite (getPtr_ok _ env [x; y] 0 x p eq_refl Hx).
      destruct v as [b|q|n]; simpl in Hty; rewrite <- Hty.
      * rewrite (getBool_ok _ env [x; y] 1 y b eq_refl Hy).
        unfold onHeap_, onHeap, E_bind, Heap.write, Heap.slot. simpl. now rewrite Hgone.
      * rewrite (getPtr_ok _ env [x; y] 1 y q eq_refl Hy).
        unfold onHeap_, onHeap, E_bind, Heap.write, Heap.slot. simpl. now rewrite Hgone.
      * rewrite (getInt_ok _ env [x; y] 1 y n eq_refl Hy).
        unfold onHeap_, onHeap, E_bind, Heap.write, Heap.slot. simpl. now rewrite Hgone.
  - intros Hbad. run_effect_op. rewrite (getPtr_ok _ env [x] 0 x p eq_refl Hx).
    unfold onHeap_, onHeap, E_bind, Heap.free.
    destruct (Heap.storage (heap st) !! base (loc p)) as [blk|] eqn:Hblk.
    + destruct Hbad as [Hdead|Hoff]; [exfalso; apply Hdead; now exists blk|].
      destruct (offset (loc p)) as [[| |]| | |]; try reflexivity. now contradiction Hoff.
    + reflexivity.
Qed.

End Pointers.

(** ** More on the arguments of the entry function and on [main] *)

Lemma bindMain_bound expected :
  forall argv (newEnv env : Env) x,
    bindMain expected argv newEnv = inr env ->
    is_Some (env !! x) ->
    is_Some (newEnv !! x) \/ exists q, q ∈ expected /\ aname q = x /\ atype q <> TPtr.
Proof.
  induction expected as [|p expected IH]; intros argv newEnv env x Hb Hx.
  - simpl in Hb. injection Hb as <-. now left.
  - destruct argv as [|s argv]; [simpl in Hb; injection Hb as <-; now left|].
    simpl in Hb. destruct (atype p) eqn:Hp.
    + destruct (BigInt (parseInt s)) as [e|n]; [discriminate|]. simpl in Hb.
      destruct (IH _ _ _ _ Hb Hx) as [Hnew|(q & Hq & Hname & Hty)].
      * destruct (decide (aname p = x)) as [Heq|Hne].
        -- right. exists p. split; [left|]. split; [assumption|congruence].
        -- left. now rewrite lookup_insert_ne in Hnew.
      * right. exists q. split; [now right|auto].
    + destruct (parseBool s) as [e|b]; [discriminate|]. simpl in Hb.
      destruct (IH _ _ _ _ Hb Hx) as [Hnew|(q & Hq & Hname & Hty)].
      * destruct (decide (aname p = x)) as [Heq|Hne].
        -- right. exists p. split; [left|]. split; [assumption|congruence].
        -- left. now rewrite lookup_insert_ne in Hnew.
      * right. exists q. split; [now right|auto].
    + destruct (IH _ _ _ _ Hb Hx) as [Hnew|(q & Hq & Hname & Hty)]; [now left|].
      right. exists q. split; [now right|auto].
Qed.

(** X19. A parameter of the entry function declared with the type ptr is
    left unbound: whatever string stands at its position, the binding does
    not read it, and the environment it yields has no binding for that
    parameter (no other parameter carrying its name). *)
Theorem pointer_parameter_unbound expected argv (env : Env) i p :
  parseMainArguments expected argv = inr env ->
  expected !! i = Some p ->
  atype p = TPtr ->
  (forall j q, j <> i -> expected !! j = Some q -> aname q <> aname p) ->
  env !! aname p = None.
Proof.
  intros Hp Hi Hty Huniq. unfold parseMainArguments in Hp.
  case_bool_decide; [discriminate|].
  destruct (env !! aname p) as [v|] eqn:Hv; [|reflexivity]. exfalso.
  destruct (bindMain_bound _ _ _ _ (aname p) Hp) as [[w Hw]|(q & Hq & Hname & Hq')].
  - now exists v.
  - now rewrite lookup_empty in Hw.
  - apply list_elem_of_lookup in Hq as [j Hj].
    destruct (decide (j = i)) as [->|Hne].
    + rewrite Hi in Hj. injection Hj as <-. contradiction.
    + now apply (Huniq j q Hne Hj).
Qed.

Lemma bindMain_app e1 :
  forall a1 e2 a2 (newEnv : Env),
    length e1 = length a1 ->
    bindMain (e1 ++ e2) (a1 ++ a2) newEnv
    = match bindMain e1 a1 newEnv with
      | inl e => inl e
      | inr env1 => bindMain e2 a2 env1
      end.
Proof.
  induction e1 as [|p e1 IH]; intros a1 e2 a2 newEnv Hlen.
  - destruct a1; [reflexivity|discriminate].
  - destruct a1 as [|s a1]; [discriminate|]. simpl in Hlen. simpl.
    destruct (atype p).
    + destruct (BigInt (parseInt s)) as [e|n]; [reflexivity|]. simpl.
      apply IH. lia.
    + destruct (parseBool s) as [e|b]; [reflexivity|]. simpl. apply IH. lia.
    + apply IH. lia.
Qed.

(** X20. An integer parameter whose string holds no digit where the host
    looks for one (the parameters before it being accepted) does not make
    the binding raise a [BriliError]: the conversion to a BigInt of the
    host fails, with the RangeError of the host, and [main] throws that
    again instead of reporting it, before any instruction has run. *)
Theorem integer_argument_without_digits e1 a1 p s e2 a2 (env1 : Env) :
  length e1 = length a1 ->
  length e2 = length a2 ->
  bindMain e1 a1 ∅ = inr env1 ->
  atype p = TInt ->
  parseInt s = NaN ->
  let nan :=
    RangeError "The number NaN cannot be converted to a BigInt because it is not an integer" in
  parseMainArguments (e1 ++ p :: e2) (a1 ++ s :: a2) = inl nan
  /\ forall fuel prog mainf,
      findFunc "main" (functions prog) = inr mainf ->
      args mainf = (e1 ++ p :: e2)%list ->
      main fuel prog (a1 ++ s :: a2)%list = Uncaught [] nan.
Proof.
  intros Hl1 Hl2 Hb1 Hty Hnan nan.
  assert (Hp : parseMainArguments (e1 ++ p :: e2) (a1 ++ s :: a2) = inl nan).
  { unfold parseMainArguments.
    rewrite bool_decide_false by (rewrite !length_app; simpl; lia).
    rewrite (bindMain_app e1 a1 (p :: e2) (s :: a2) ∅ Hl1), Hb1.
    simpl. now rewrite Hty, Hnan. }
  split; [assumption|]. intros fuel prog mainf Hf Hargs.
  unfold main, evalProg, bind, lift. now rewrite Hf, Hargs, Hp.
Qed.

(** X21. What [main] makes of a run whose entry function has been found
    and its arguments bound. If the entry function raises a [BriliError],
    [main] reports its message behind the words "Brili interpreter error:";
    any other error it throws again. If the entry function returns with a
    block still live, the leak message is thrown again too, not reported.
    In each case the lines printed before are kept. And this holds with
    any larger amount of fuel. *)
Theorem main_outcomes fuel prog argv mainf (env : Env) :
  findFunc "main" (functions prog) = inr mainf ->
  parseMainArguments (args mainf) argv = inr env ->
  (forall e st',
      evalFuncInEnv fuel mainf (functions prog) env initial = Raise e st' ->
      forall fuel', fuel <= fuel' ->
        main fuel' prog argv
        = match e with
          | BriliError m => Reported (out st') ("Brili interpreter error: " ++ m)
          | _ => Uncaught (out st') e
          end)
  /\ (forall rv st',
      evalFuncInEnv fuel mainf (functions prog) env initial = Done rv st' ->
      forall fuel', fuel <= fuel' ->
        ((exists b, live (heap st') b) -> main fuel' prog argv = Uncaught (out st') leak)
        /\ ((forall b, ~ live (heap st') b) -> main fuel' prog argv = Completed (out st'))).
Proof.
  intros Hf Hargs. split.
  - intros e st' Hrun fuel' Hfuel.
    assert (Hrun' : evalFuncInEnv fuel' mainf (functions prog) env initial = Raise e st').
    { unfold evalFuncInEnv in *.
      rewrite (evalLoop_fuel_mono fuel fuel' mainf (functions prog) 0 env initial Hfuel);
        [assumption|]. rewrite Hrun. discriminate. }
    unfold main, evalProg, bind, lift. rewrite Hf, Hargs, Hrun'. now destruct e.
  - intros rv st' Hrun fuel' Hfuel.
    pose proof (evalFuncInEnv_fuel_mono _ _ _ _ _ _ _ _ Hfuel Hrun) as Hrun'.
    unfold main, evalProg, bind, lift. rewrite Hf, Hargs, Hrun'. split.
    + intros Hlive. apply isEmpty_false in Hlive. now rewrite Hlive.
    + intros Hnone. apply isEmpty_true in Hnone. now rewrite Hnone.
Qed.

(** ** What an instruction leaves alone *)

Lemma preserves_onHeap {A} P (f : Heap.t Value -> E (A * Heap.t Value)) :
  (forall s h, P s -> P {| heap := h; out := out s |}) -> preserves P (onHeap f).
Proof.
  intros HP s Hs. unfold onHeap. destruct (f (heap s)) as [e|[a h]]; [assumption|].
  now apply HP.
Qed.

Lemma preserves_onHeap_ P (f : Heap.t Value -> E (Heap.t Value)) :
  (forall s h, P s -> P {| heap := h; out := out s |}) -> preserves P (onHeap_ f).
Proof.
  intros HP. unfold onHeap_. now apply preserves_onHeap.
Qed.

Lemma preserves_log P values :
  (forall s line, P s -> P {| heap := heap s; out := out s ++ [line] |}) ->
  preserves P (console_log values).
Proof. intros HP s Hs. unfold console_log. now apply HP. Qed.

Ltac preserve_with HP :=
  repeat first
    [ apply preserves_ret | apply preserves_throw | apply preserves_lift
    | apply preserves_fromHeap
    | apply preserves_log; exact (proj2 HP)
    | apply preserves_onHeap; exact (proj1 HP)
    | apply preserves_onHeap_; exact (proj1 HP)
    | apply preserves_bind; [|intros ?]
    | match goal with
      | |- preserves _ (if ?b then _ else _) => destruct b
      | |- preserves _ (match ?x with _ => _ end) => destruct x
      end ].

Lemma evalInstr_output_invariant P callee instr (env : Env) funcs :
  output_invariant P ->
  (forall f e, preserves P (callee f e)) ->
  preserves P (evalInstr callee instr env funcs).
Proof.
  intros HP Hc. unfold evalInstr.
  destruct instr as [dest ty value|op a dest ty|op a|fname a dest ty].
  - preserve_with HP.
  - unfold evalValueOp, alloc. destruct op; preserve_with HP.
  - unfold evalEffectOp. destruct op; preserve_with HP.
  - unfold evalCall. preserve_with HP; apply Hc.
Qed.

Lemma evalLoop_output_invariant P fuel :
  output_invariant P ->
  forall func funcs i (env : Env), preserves P (evalLoop fuel func funcs i env).
Proof.
  intros HP. induction fuel as [|fuel IH]; intros func funcs i env;
    [intros s Hs; exact I|].
  simpl. destruct (instrs func !! i) as [[line|l]|]; [|apply IH|apply preserves_ret].
  apply preserves_bind.
  - apply evalInstr_output_invariant; [assumption|]. intros f e. apply IH.
  - intros [[label| |v] env']; preserve_with HP; apply IH.
Qed.

(** X22. The output only grows: whatever a function does, with whatever
    calls, the lines printed before it runs are still there, in the same
    order, at the front of the output when it returns or raises. *)
Theorem output_only_grows fuel func funcs i (env : Env) s :
  match evalLoop fuel func funcs i env s with
  | Done _ s' => out s `prefix_of` out s'
  | Raise _ s' => out s `prefix_of` out s'
  | OutOfFuel => True
  end.
Proof.
  apply (evalLoop_output_invariant (fun s' => out s `prefix_of` out s')).
  - split.
    + intros s0 h Hs0. exact Hs0.
    + intros s0 line Hs0. simpl. now apply prefix_app_r.
  - reflexivity.
Qed.

(** X23. Only [alloc], [free], [store], [print] and [call] act on the
    state: every other instruction, whether it returns or raises, leaves
    the heap and the output exactly as they were. *)
Theorem state_untouched callee instr (env : Env) funcs s :
  effectful instr = false ->
  match evalInstr callee instr env funcs s with
  | Done _ s' => s' = s
  | Raise _ s' => s' = s
  | OutOfFuel => True
  end.
Proof.
  intros Heff.
  assert (Hp : preserves (fun s' => s' = s) (evalInstr callee instr env funcs)).
  { unfold evalInstr.
    destruct instr as [dest ty value|op a dest ty|op a|fname a dest ty].
    - preserve_with I.
    - unfold evalValueOp. destruct op; try discriminate; preserve_with I.
    - unfold evalEffectOp. destruct op; try discriminate; preserve_with I.
    - discriminate. }
  exact (Hp s eq_refl).
Qed.

Lemma returns_ret {A} (Q : A -> Prop) a : Q a -> returns Q (ret a).
Proof. intros Ha s a' s' [= <- <-]. exact Ha. Qed.

Lemma returns_throw {A} (Q : A -> Prop) e : returns Q (@throw A e).
Proof. intros s a s' H. discriminate. Qed.

Lemma returns_bind {A B} (Q : B -> Prop) (m : M A) (k : A -> M B) :
  (forall a, returns Q (k a)) -> returns Q (bind m k).
Proof.
  intros Hk s b s' H. unfold bind in H.
  destruct (m s) as [a s1|e s1|]; [|discriminate|discriminate]. exact (Hk a s1 b s' H).
Qed.

Ltac returning :=
  repeat first
    [ apply returns_throw
    | apply returns_bind; intros ?
    | match goal with
      | |- returns _ (if ?b then _ else _) => destruct b
      | |- returns _ (match ?x with _ => _ end) => destruct x
      end ].

(** X24. An instruction that returns has changed at most one binding of
    the environment, the one of its destination; an instruction without a
    destination has changed none. This holds of a call too, whatever the
    callee does. *)
Theorem only_destination_bound callee instr (env env' : Env) funcs s act s' :
  evalInstr callee instr env funcs s = Done (act, env') s' ->
  forall z, destination instr <> Some z -> env' !! z = env !! z.
Proof.
  intros Hrun z Hz.
  assert (Hr : returns (fun r : Action * Env => r.2 !! z = env !! z)
                 (evalInstr callee instr env funcs)).
  { unfold evalInstr. apply returns_bind. intros _.
    destruct instr as [dest ty value|op a dest ty|op a|fname a dest ty]; simpl in Hz.
    - apply returns_ret. simpl. apply lookup_insert_ne. congruence.
    - assert (Hd : dest <> z) by congruence.
      unfold evalValueOp. destruct op; returning;
        apply returns_ret; simpl; now apply lookup_insert_ne.
    - unfold evalEffectOp. destruct op; returning; now apply returns_ret.
    - unfold evalCall. returning; apply returns_ret; simpl; try reflexivity.
      apply lookup_insert_ne. congruence. }
  exact (Hr s (act, env') s' Hrun).
Qed.

(** ** Functions without jumps and calls *)

Lemma answers_ret {A} (a : A) : answers (ret a).
Proof. intros s. discriminate. Qed.

Lemma answers_throw {A} e : answers (@throw A e).
Proof. intros s. discriminate. Qed.

Lemma answers_lift {A} (c : E A) : answers (lift c).
Proof. intros s. unfold lift. destruct c; discriminate. Qed.

Lemma answers_fromHeap {A} (f : Heap.t Value -> E A) : answers (fromHeap f).
Proof. intros s. unfold fromHeap. destruct (f (heap s)); discriminate. Qed.

Lemma answers_onHeap {A} (f : Heap.t Value -> E (A * Heap.t Value)) : answers (onHeap f).
Proof. intros s. unfold onHeap. destruct (f (heap s)) as [e|[a h]]; discriminate. Qed.

Lemma answers_onHeap_ (f : Heap.t Value -> E (Heap.t Value)) : answers (onHeap_ f).
Proof. apply answers_onHeap. Qed.

Lemma answers_log values : answers (console_log values).
Proof. intros s. discriminate. Qed.

Lemma answers_bind {A B} (m : M A) (k : A -> M B) :
  answers m -> (forall a, answers (k a)) -> answers (bind m k).
Proof.
  intros Hm Hk s. unfold bind. specialize (Hm s).
  destruct (m s) as [a s1|e s1|]; [apply Hk|discriminate|contradiction].
Qed.

Ltac answering :=
  repeat first
    [ apply answers_ret | apply answers_throw | apply answers_lift
    | apply answers_fromHeap | apply answers_onHeap_ | apply answers_onHeap
    | apply answers_log
    | apply answers_bind; [|intros ?]
    | match goal with
      | |- answers (if ?b then _ else _) => destruct b
      | |- answers (match ?x with _ => _ end) => destruct x
      end ].

Lemma straight_instr_answers callee instr (env : Env) funcs :
  transfers (Instr instr) = false ->
  answers (evalInstr callee instr env funcs)
  /\ returns (fun r : Action * Env => forall l, r.1 <> ActLabel l)
       (evalInstr callee instr env funcs).
Proof.
  intros Ht. unfold evalInstr.
  destruct instr as [dest ty value|op a dest ty|op a|fname a dest ty];
    [| | |discriminate].
  - split; [answering|]. returning. now apply returns_ret.
  - split.
    + unfold evalValueOp, alloc. destruct op; answering.
    + unfold evalValueOp. destruct op; returning; now apply returns_ret.
  - split.
    + unfold evalEffectOp. destruct op; try discriminate; answering.
    + unfold evalEffectOp. destruct op; try discriminate; returning;
        now apply returns_ret.
Qed.

(** One turn of the loop. *)
Lemma evalLoop_step fuel func funcs i (env : Env) :
  evalLoop (S fuel) func funcs i env
  = match instrs func !! i with
    | None => ret None
    | Some (Label _) => evalLoop fuel func funcs (S i) env
    | Some (Instr line) =>
        let* r := evalInstr (fun f e => evalLoop fuel f funcs 0 e) line env funcs in
        match r with
        | (ActLabel label, env') =>
            let j := searchLabel label (instrs func) in
            if bool_decide (j = length (instrs func))
            then throw (BriliError ("label " ++ label ++ " not found"))
            else evalLoop fuel func funcs (S j) env'
        | (ActEnd v, _) => ret v
        | (NEXT, env') => evalLoop fuel func funcs (S i) env'
        end
    end.
Proof. reflexivity. Qed.

(** X25. A function whose body has no [jmp], no [br] and no [call] ends,
    by a return or by an error: from the index [i] it needs no more fuel
    than the number of entries left plus one, so a body of [k] entries is
    done with [k + 1] units, and with any more the outcome is the same. *)
Theorem straight_line_ends func funcs :
  (forall line, line ∈ instrs func -> transfers line = false) ->
  forall n i (env : Env) s,
    length (instrs func) <= i + n ->
    evalLoop (S n) func funcs i env s <> OutOfFuel
    /\ forall fuel, S n <= fuel ->
         evalLoop fuel func funcs i env s = evalLoop (S n) func funcs i env s.
Proof.
  intros Hstraight.
  assert (Hends : forall n i (env : Env) s,
             length (instrs func) <= i + n ->
             evalLoop (S n) func funcs i env s <> OutOfFuel).
  { induction n as [|n IH]; intros i env s Hlen.
    - rewrite evalLoop_step, (lookup_ge_None_2 (instrs func) i) by lia. discriminate.
    - rewrite evalLoop_step. destruct (instrs func !! i) as [[instr|l]|] eqn:Hi;
        [| |discriminate].
      + assert (Ht : transfers (Instr instr) = false).
        { apply Hstraight. apply list_elem_of_lookup. now exists i. }
        destruct (straight_instr_answers
                    (fun f e => evalLoop (S n) f funcs 0 e) instr env funcs Ht)
          as [Hans Hret].
        unfold bind.
        destruct (evalInstr (fun f e => evalLoop (S n) f funcs 0 e) instr env funcs s)
          as [[act env'] s1|e s1|] eqn:Hrun.
        * pose proof (Hret s (act, env') s1 Hrun) as Hact. simpl in Hact.
          destruct act as [l| |v].
          -- now contradiction (Hact l).
          -- apply IH. lia.
          -- discriminate.
        * discriminate.
        * now contradiction (Hans s).
      + apply IH. lia. }
  intros n i env s Hlen. split; [now apply Hends|].
  intros fuel Hfuel. apply evalLoop_fuel_mono; [assumption|now apply Hends].
Qed.

(** ** The earlier interpreter *)

Lemma legacy_findFunc_some func funcs f :
  Legacy.findFunc func funcs = Some f <->
  exists i, funcs !! i = Some f /\ name f = func
            /\ forall j g, j < i -> funcs !! j = Some g -> name g <> func.
Proof.
  induction funcs as [|f0 funcs IH]; simpl.
  - split; [discriminate|]. intros (i & Hi & _). now rewrite lookup_nil in Hi.
  - case_bool_decide as Hn.
    + split.
      * intros Heq. injection Heq as Heq. subst f0. exists 0.
        split; [reflexivity|]. split; [assumption|]. intros j g Hj. lia.
      * intros (i & Hi & Hname & Hfirst). destruct i as [|i].
        -- simpl in Hi. congruence.
        -- exfalso. apply (Hfirst 0 f0); [lia|reflexivity|assumption].
    + rewrite IH. split.
      * intros (i & Hi & Hname & Hfirst). exists (S i). split; [assumption|].
        split; [assumption|]. intros j g Hj Hg. destruct j as [|j].
        -- simpl in Hg. congruence.
        -- apply (Hfirst j g); [lia|assumption].
      * intros (i & Hi & Hname & Hfirst). destruct i as [|i].
        -- simpl in Hi. congruence.
        -- exists i. split; [assumption|]. split; [assumption|].
           intros j g Hj Hg. apply (Hfirst (S j) g); [lia|assumption].
Qed.

Lemma legacy_findFunc_none func funcs :
  Legacy.findFunc func funcs = None <-> forall f, f ∈ funcs -> name f <> func.
Proof.
  induction funcs as [|f0 funcs IH]; simpl.
  - split; [|reflexivity]. intros _ f Hf. now apply elem_of_nil in Hf.
  - case_bool_decide as Hn.
    + split; [discriminate|]. intros H. exfalso. apply (H f0); [left|assumption].
    + rewrite IH. split.
      * intros H f Hf. apply elem_of_cons in Hf as [->|Hf]; [assumption|now apply H].
      * intros H f Hf. apply H. now right.
Qed.

Lemma legacy_findFunc_agrees func funcs f :
  findFunc func funcs = inr f -> Legacy.findFunc func funcs = Some f.
Proof.
  unfold findFunc. induction funcs as [|f0 funcs IH]; [discriminate|].
  simpl. rewrite filter_cons. case_bool_decide as Hn.
  - rewrite decide_True by assumption.
    destruct (filter (fun f => name f = func) funcs) as [|g rest]; [|discriminate].
    congruence.
  - rewrite decide_False by assumption. exact IH.
Qed.

(** X26. In the earlier interpreter the lookup of a function answers the
    first function of the table with the name asked for, and null exactly
    when the table has none; several functions of one name are no error
    there. Where the lookup of the later interpreter finds its function,
    the earlier one finds the same. *)
Theorem legacy_findFunc_first func funcs :
  (forall f,
      Legacy.findFunc func funcs = Some f <->
      exists i, funcs !! i = Some f /\ name f = func
                /\ forall j g, j < i -> funcs !! j = Some g -> name g <> func)
  /\ (Legacy.findFunc func funcs = None <-> forall f, f ∈ funcs -> name f <> func)
  /\ (forall f, findFunc func funcs = inr f -> Legacy.findFunc func funcs = Some f).
Proof.
  split; [intros f; apply legacy_findFunc_some|].
  split; [apply legacy_findFunc_none|intros f; apply legacy_findFunc_agrees].
Qed.

(** X27. In the earlier interpreter a program without a function named
    main is no error: the driver prints one line of warning and ends
    normally, and no function is run. *)
Theorem legacy_missing_main_warns evalF prog :
  (forall f, f ∈ functions prog -> name f <> "main") ->
  Legacy.evalProg evalF prog
  = Done tt {| heap := Heap.empty;
               out := ["warning: no main function defined, doing nothing"] |}.
Proof.
  intros Habs. unfold Legacy.evalProg.
  now rewrite (proj2 (legacy_findFunc_none "main" (functions prog)) Habs).
Qed.

Lemma legacy_bindArgs_other env cargs params :
  forall i (newEnv out_ : gmap string Legacy.Value) z,
    Legacy.bindArgs env params cargs i newEnv = inr out_ ->
    (forall q, q ∈ params -> aname q <> z) ->
    out_ !! z = newEnv !! z.
Proof.
  induction params as [|p params IH]; intros i newEnv out_ z Hb Hne.
  - simpl in Hb. now injection Hb as <-.
  - simpl in Hb. destruct (Legacy.getAt env cargs i) as [e|v]; [discriminate|].
    simpl in Hb.
    rewrite (IH _ _ _ _ Hb) by (intros q Hq; apply Hne; now right).
    apply lookup_insert_ne. apply Hne. left.
Qed.

Lemma legacy_bindArgs_enough env cargs params :
  forall i (newEnv : gmap string Legacy.Value),
    i + length params <= length cargs ->
    (forall j x, cargs !! j = Some x -> j < i + length params -> is_Some (env !! x)) ->
    exists out_,
      Legacy.bindArgs env params cargs i newEnv = inr out_
      /\ forall j p x,
          params !! j = Some p -> last_of_its_name params j p ->
          cargs !! (i + j) = Some x ->
          out_ !! aname p = env !! x.
Proof.
  induction params as [|p0 params IH]; intros i newEnv Hlen Hbound.
  - exists newEnv. split; [reflexivity|]. intros j p x Hj. now rewrite lookup_nil in Hj.
  - simpl in Hlen. simpl.
    destruct (cargs !! i) as [x0|] eqn:Hx0.
    2:{ apply lookup_ge_None in Hx0. lia. }
    destruct (Hbound i x0 Hx0 ltac:(simpl; lia)) as [v0 Hv0].
    unfold Legacy.getAt, Legacy.get. rewrite Hx0, Hv0. simpl.
    destruct (IH (S i) (<[aname p0 := v0]> newEnv) ltac:(lia)) as (out_ & Hb & Hpos).
    { intros j x Hx Hj. apply (Hbound j x Hx). simpl. lia. }
    exists out_. split; [assumption|]. intros j p x Hj Hlast Hx.
    destruct j as [|j].
    + simpl in Hj. injection Hj as ->. rewrite Nat.add_0_r in Hx.
      rewrite Hx in Hx0. injection Hx0 as ->.
      rewrite (legacy_bindArgs_other _ _ _ _ _ _ _ Hb).
      * now rewrite lookup_insert_eq.
      * intros q Hq. apply list_elem_of_lookup in Hq as [k Hk].
        apply (Hlast (S k) q); [lia|assumption].
    + simpl in Hj. apply (Hpos j p x Hj).
      * intros k q Hk Hq. apply (Hlast (S k) q); [lia|assumption].
      * now replace (S i + j) with (i + S j) by lia.
Qed.

Lemma legacy_bindArgs_short env cargs params :
  forall i (newEnv : gmap string Legacy.Value),
    i <= length cargs ->
    length cargs < i + length params ->
    (forall j x, cargs !! j = Some x -> is_Some (env !! x)) ->
    Legacy.bindArgs env params cargs i newEnv
    = inl (Thrown "undefined variable undefined").
Proof.
  induction params as [|p0 params IH]; intros i newEnv Hi Hlen Hbound.
  - simpl in Hlen. lia.
  - simpl in Hlen. simpl. destruct (cargs !! i) as [x0|] eqn:Hx0.
    + destruct (Hbound i x0 Hx0) as [v0 Hv0].
      unfold Legacy.getAt, Legacy.get. rewrite Hx0, Hv0. simpl.
      apply lookup_lt_Some in Hx0. apply IH; [lia|lia|assumption].
    + unfold Legacy.getAt. now rewrite Hx0.
Qed.

(** X28. A call in the earlier interpreter checks neither the number of
    its arguments nor their types. With at least as many arguments as the
    callee has parameters, all bound, the callee starts with each parameter
    (the last of its name) bound to the value of the argument at its
    position, whatever its type, and the arguments in excess are not looked
    at. With fewer bound arguments than parameters the call throws the
    message for an undefined variable named undefined, in the unchanged
    state, before the callee runs. *)
Theorem legacy_call_unchecked evalF fname cargs ret_ (env : gmap string Legacy.Value)
    funcs st func :
  Legacy.findFunc fname funcs = Some func ->
  (length (args func) <= length cargs ->
     (forall j x, cargs !! j = Some x -> j < length (args func) -> is_Some (env !! x)) ->
     exists newEnv,
       Legacy.bindArgs env (args func) cargs 0 ∅ = inr newEnv
       /\ forall j p x,
           args func !! j = Some p -> last_of_its_name (args func) j p ->
           cargs !! j = Some x -> newEnv !! aname p = env !! x)
  /\ (length cargs < length (args func) ->
      (forall j x, cargs !! j = Some x -> is_Some (env !! x)) ->
      Legacy.evalCall evalF fname cargs ret_ env funcs st
      = Raise (Thrown "undefined variable undefined") st).
Proof.
  intros Hf. split.
  - intros Hlen Hbound.
    destruct (legacy_bindArgs_enough env cargs (args func) 0 ∅ ltac:(lia) Hbound)
      as (newEnv & Hb & Hpos).
    exists newEnv. split; [assumption|exact Hpos].
  - intros Hlen Hbound. unfold Legacy.evalCall, bind, lift. rewrite Hf.
    now rewrite (legacy_bindArgs_short env cargs (args func) 0 ∅ ltac:(lia) Hlen Hbound).
Qed.

(** X29. A call of the earlier interpreter that expects a value, once its
    callee has returned: a value of the type declared at the call is bound
    to the destination, and the call prints two lines of its own after the
    output of the callee, the name of the destination and the value (an
    integer with the mark of a BigInt); no value, or a value of another
    type, makes it throw a plain message and print nothing. *)
Theorem legacy_value_call_prints evalF fname cargs dest ty
    (env newEnv : gmap string Legacy.Value) funcs st func rv st' :
  Legacy.findFunc fname funcs = Some func ->
  Legacy.bindArgs env (args func) cargs 0 ∅ = inr newEnv ->
  evalF func funcs newEnv st = Done rv st' ->
  let call := Legacy.evalCall evalF fname cargs (Some (dest, ty)) env funcs st in
  (forall v, rv = Some v -> brilTypeToDynamicType ty = Legacy.typeof v ->
     call = Done (<[dest := v]> env)
              {| heap := heap st'; out := (out st' ++ [dest]) ++ [Legacy.inspect v] |})
  /\ (forall v, rv = Some v -> brilTypeToDynamicType ty <> Legacy.typeof v ->
     call = Raise (Thrown "type of value returned by function does not match declaration") st')
  /\ (rv = None -> call = Raise (Thrown "nothing returned from non-void function") st').
Proof.
  intros Hf Hb Hrun call. subst call.
  unfold Legacy.evalCall, bind, lift. rewrite Hf, Hb, Hrun.
  split; [|split].
  - intros v -> Hty. now rewrite bool_decide_false by (intros Hn; now apply Hn).
  - intros v -> Hty. now rewrite bool_decide_true.
  - now intros ->.
Qed.

(** ** Instances *)

Lemma pointer_operand_required_witness :
  let idle : Function -> Env -> M ReturnValue := fun _ _ => ret None in
  let env : Env := {[ "a" := VInt 1 ]} in
  evalInstr idle (EffectOperation OpFree ["a"]) env [] initial
    = Raise (Thrown "free argument 0 must be a Pointer") initial
  /\ evalInstr idle (ValueOperation OpLoad ["a"] "c" (Prim TInt)) env [] initial
    = Raise (Thrown "load argument 0 must be a Pointer") initial
  /\ evalInstr idle (EffectOperation OpStore ["a"; "b"]) env [] initial
    = Raise (Thrown "store argument 0 must be a Pointer") initial
  /\ evalInstr idle (ValueOperation OpPtradd ["a"; "b"] "c" (Prim TInt)) env [] initial
    = Raise (Thrown "ptradd argument 0 must be a Pointer") initial.
Proof.
  intros idle env.
  exact (pointer_operand_required idle "a" "b" "c" (Prim TInt) env [] initial (VInt 1)
           eq_refl ltac:(discriminate)).
Defined.

Lemma ptradd_unchecked_witness :
  let idle : Function -> Env -> M ReturnValue := fun _ _ => ret None in
  let p := {| loc := {| base := 7; offset := Num 0 |}; type := TBool |} in
  let env : Env := <[ "n" := VInt 2 ]> {[ "p" := VPtr p ]} in
  exists q,
    evalInstr idle (ValueOperation OpPtradd ["p"; "n"] "r" (Prim TInt)) env [] initial
    = Done (NEXT, <["r" := VPtr q]> env) initial
    /\ type q = TBool /\ base (loc q) = 7
    /\ loc q = Key_add {| base := 7; offset := Num 0 |} (Number 2).
Proof.
  intros idle p env.
  exact (ptradd_unchecked idle "p" "n" "r" (Prim TInt) env [] initial p 2
           eq_refl eq_refl).
Defined.

Lemma store_then_load_witness :
  let idle : Function -> Env -> M ReturnValue := fun _ _ => ret None in
  let p := {| loc := {| base := 0; offset := Num 1 |}; type := TInt |} in
  let env : Env := <[ "v" := VInt 7 ]> {[ "p" := VPtr p ]} in
  let st := {| heap := Heap.mk {[ 0 := [None; None] ]} 1; out := [] |} in
  exists st',
    evalInstr idle (EffectOperation OpStore ["p"; "v"]) env [] st = Done (NEXT, env) st'
    /\ evalInstr idle (ValueOperation OpLoad ["p"] "y" (Prim TInt)) env [] st'
       = Done (NEXT, <["y" := VInt 7]> env) st'.
Proof.
  intros idle p env st.
  exact (store_then_load idle "p" "v" "y" (Prim TInt) env [] st p (VInt 7)
           [None; None] 1 eq_refl eq_refl eq_refl eq_refl).
Defined.

Lemma free_releases_witness :
  let idle : Function -> Env -> M ReturnValue := fun _ _ => ret None in
  let p := {| loc := {| base := 0; offset := Num 0 |}; type := TInt |} in
  let q := {| loc := {| base := 0; offset := Num 1 |}; type := TInt |} in
  let env : Env := <[ "q" := VPtr q ]> {[ "p" := VPtr p ]} in
  let st := {| heap := Heap.mk {[ 0 := [None; None] ]} 1; out := [] |} in
  (exists st',
      evalInstr idle (EffectOperation OpFree ["p"]) env [] st = Done (NEXT, env) st'
      /\ evalInstr idle (EffectOperation OpFree ["p"]) env [] st'
         = Raise (HeapError InvalidFree) st')
  /\ evalInstr idle (EffectOperation OpFree ["q"]) env [] st
     = Raise (HeapError InvalidFree) st.
Proof.
  intros idle p q env st. split.
  - destruct (proj1 (free_releases idle "p" "v" "y" (Prim TInt) env [] st p eq_refl)
                [None; None] eq_refl eq_refl)
      as (st' & Hfree & _ & _ & Hagain & _).
    exists st'. split; [exact Hfree|exact Hagain].
  - refine (proj2 (free_releases idle "q" "v" "y" (Prim TInt) env [] st q eq_refl) _).
    right. discriminate.
Defined.

Lemma pointer_parameter_unbound_witness :
  let expected := [ {| aname := "p"; atype := TPtr |}; {| aname := "n"; atype := TInt |} ] in
  parseMainArguments expected ["anything"; "3"] = inr {[ "n" := VInt 3 ]}
  /\ ({[ "n" := VInt 3 ]} : Env) !! "p" = None.
Proof.
  intros expected. split; [reflexivity|].
  refine (pointer_parameter_unbound expected ["anything"; "3"] {[ "n" := VInt 3 ]} 0
            {| aname := "p"; atype := TPtr |} eq_refl eq_refl eq_refl _).
  intros j q Hj Hq. destruct j as [|[|j]]; simpl in Hq; [lia| |discriminate].
  injection Hq as <-. simpl. discriminate.
Defined.

Lemma integer_argument_without_digits_witness :
  parseMainArguments [ {| aname := "n"; atype := TInt |} ] ["abc"]
  = inl (RangeError "The number NaN cannot be converted to a BigInt because it is not an integer").
Proof.
  exact (proj1 (integer_argument_without_digits [] [] {| aname := "n"; atype := TInt |}
                  "abc" [] [] ∅ eq_refl eq_refl eq_refl eq_refl eq_refl)).
Defined.

Lemma main_outcomes_witness :
  main 10 late_error_prog [] = Uncaught ["1"] (Thrown "free argument 0 must be a Pointer")
  /\ main 10 leaky_prog [] = Uncaught [] leak.
Proof.
  split.
  - exact (proj1 (main_outcomes 4 late_error_prog [] _ ∅ eq_refl eq_refl)
             (Thrown "free argument 0 must be a Pointer")
             {| heap := Heap.empty; out := ["1"] |} eq_refl 10 ltac:(lia)).
  - refine (proj1 (proj2 (main_outcomes 3 leaky_prog [] _ ∅ eq_refl eq_refl)
                     None {| heap := Heap.mk {[ 0 := [None] ]} 1; out := [] |}
                     eq_refl 10 ltac:(lia)) _).
    exists 0, [None]. reflexivity.
Defined.

Lemma state_untouched_witness :
  let idle : Function -> Env -> M ReturnValue := fun _ _ => ret None in
  match evalInstr idle (ValueOperation OpNot ["u"] "c" (Prim TBool)) ∅ [] initial with
  | Done _ s' => s' = initial
  | Raise _ s' => s' = initial
  | OutOfFuel => True
  end.
Proof.
  intros idle.
  exact (state_untouched idle (ValueOperation OpNot ["u"] "c" (Prim TBool)) ∅ []
           initial eq_refl).
Defined.

Lemma only_destination_bound_witness :
  let funcs := [typed_callee] in
  let env : Env := <[ "x" := VBool false ]> {[ "a" := VInt 5 ]} in
  (<["r" := VInt 5]> env) !! "x" = env !! "x".
Proof.
  intros funcs env.
  exact (only_destination_bound (fun f e => evalFuncInEnv 10 f funcs e)
           (CallOperation "f" ["a"] (Some "r") (Some TInt)) env (<["r" := VInt 5]> env)
           funcs initial NEXT {| heap := Heap.empty; out := ["5"] |} eq_refl
           "x" ltac:(discriminate)).
Defined.

Lemma straight_line_ends_witness :
  evalLoop 5 plain_function [] 0 ∅ initial <> OutOfFuel
  /\ evalLoop 100 plain_function [] 0 ∅ initial = evalLoop 5 plain_function [] 0 ∅ initial.
Proof.
  assert (Hstraight : forall line, line ∈ instrs plain_function -> transfers line = false).
  { intros line Hline. simpl in Hline.
    repeat (apply elem_of_cons in Hline as [->|Hline]; [reflexivity|]).
    now apply elem_of_nil in Hline. }
  destruct (straight_line_ends plain_function [] Hstraight 4 0 ∅ initial
              ltac:(simpl; lia)) as [Hends Hsame].
  split; [exact Hends|]. apply Hsame. lia.
Defined.

Lemma legacy_findFunc_first_witness :
  Legacy.findFunc "f" [silent_callee; typed_callee; typed_callee] = Some typed_callee
  /\ Legacy.findFunc "f" [typed_callee] = Some typed_callee.
Proof.
  split.
  - apply (proj1 (legacy_findFunc_first "f" [silent_callee; typed_callee; typed_callee])).
    exists 1. split; [reflexivity|]. split; [reflexivity|].
    intros j g Hj Hg. destruct j as [|j]; [|lia]. injection Hg as <-. discriminate.
  - exact (proj2 (proj2 (legacy_findFunc_first "f" [typed_callee])) typed_callee eq_refl).
Defined.

Lemma legacy_missing_main_warns_witness :
  Legacy.evalProg (fun _ _ _ => ret None) {| functions := [typed_callee] |}
  = Done tt {| heap := Heap.empty;
               out := ["warning: no main function defined, doing nothing"] |}.
Proof.
  refine (legacy_missing_main_warns _ {| functions := [typed_callee] |} _).
  intros f Hf. apply list_elem_of_singleton in Hf as ->. simpl. discriminate.
Defined.

Lemma legacy_call_unchecked_witness :
  let env : gmap string Legacy.Value := {[ "b" := Legacy.VBool true ]} in
  (exists newEnv,
      Legacy.bindArgs env (args typed_callee) ["b"; "unbound"] 0 ∅ = inr newEnv
      /\ forall j p x,
          args typed_callee !! j = Some p -> last_of_its_name (args typed_callee) j p ->
          ["b"; "unbound"] !! j = Some x -> newEnv !! aname p = env !! x)
  /\ Legacy.evalCall (fun _ _ _ => ret None) "f" [] None env [typed_callee] initial
     = Raise (Thrown "undefined variable undefined") initial.
Proof.
  intros env. split.
  - refine (proj1 (legacy_call_unchecked (fun _ _ _ => ret None) "f" ["b"; "unbound"]
                     None env [typed_callee] initial typed_callee eq_refl)
              ltac:(simpl; lia) _).
    intros j x Hx Hj. destruct j as [|j]; [|simpl in Hj; lia].
    injection Hx as <-. now exists (Legacy.VBool true).
  - refine (proj2 (legacy_call_unchecked (fun _ _ _ => ret None) "f" [] None env
                     [typed_callee] initial typed_callee eq_refl)
              ltac:(simpl; lia) _).
    intros j x Hx. now rewrite lookup_nil in Hx.
Defined.

Lemma legacy_value_call_prints_witness :
  let evalF : Function -> list Function -> gmap string Legacy.Value
              -> M Legacy.ReturnValue := fun _ _ _ => ret (Some (Legacy.VInt 7)) in
  Legacy.evalCall evalF "g" [] (Some ("r", TInt)) ∅ [silent_callee] initial
  = Done (<["r" := Legacy.VInt 7]> ∅) {| heap := Heap.empty; out := ["r"; "7n"] |}.
Proof.
  intros evalF.
  exact (proj1 (legacy_value_call_prints evalF "g" [] "r" TInt ∅ ∅ [silent_callee]
                  initial silent_callee (Some (Legacy.VInt 7)) initial
                  eq_refl eq_refl eq_refl)
           (Legacy.VInt 7) eq_refl eq_refl).
Defined.
